(** * planet_sim02: the gravitational integrator

    A shallow embedding of the core of [planet_sim02/main.py] (classes
    [CelestialBody] and [PhysicsEngine]) and of the energy harness of
    [test.py] (class [EnergyTester]), followed by the properties of the
    specification that were checked against it.  The parts of
    [SimulationController] that drive the engine, the text of [InputField]
    and the table of [EnergyTester.save_report] are embedded as well, with
    further properties read off the code.

    Numbers.  Every scalar of the program is a Python/numpy float, that
    is an IEEE-754 binary64 number.  They are modelled by Rocq's primitive
    [float], whose operations are the binary64 operations with rounding to
    nearest even, so the definitions below can be evaluated on the inputs of
    the program.  Three conventions are fixed once:
    - a numpy array of shape (2,) is the record [vec]; the array operators
      act component by component, each component rounded on its own;
    - [np.linalg.norm] of such an array is the square root of its dot
      product with itself, [sqrt (x*x + y*y)], every operation rounded;
    - [x ** 2] is the rounded square [x * x].
    Facts that hold for all inputs are proved from the specification of the
    binary64 operations ([SpecFloat]); facts about one scenario are
    evaluated.

    Objects.  Bodies are Python objects that the engine holds by reference:
    the same object may sit twice in [bodies], and [!=], [in] and
    [list.remove] compare identities because [CelestialBody] defines no
    [__eq__].  The model therefore has a store ([heap]) from references to
    body records; methods read and write the record behind [self]. *)

From Stdlib Require Import Floats ZArith List Lia String.
From stdpp Require Import gmap list.

Set Warnings "-inexact-float,-abstract-large-number".

(** ** Arrays of two floats *)

Record vec := Vec { vx : float; vy : float }.

Module Vec.
Definition zero : vec := Vec 0 0.                         (* np.array([0.0, 0.0]) *)
Definition add (u v : vec) : vec := Vec (vx u + vx v) (vy u + vy v).
Definition sub (u v : vec) : vec := Vec (vx u - vx v) (vy u - vy v).
Definition neg (u : vec) : vec := Vec (- vx u) (- vy u).
(* array * scalar, scalar * array, array / scalar *)
Definition mul_r (u : vec) (k : float) : vec := Vec (vx u * k) (vy u * k).
Definition mul_l (k : float) (u : vec) : vec := Vec (k * vx u) (k * vy u).
Definition div (u : vec) (k : float) : vec := Vec (vx u / k) (vy u / k).
(* np.linalg.norm *)
Definition dot (u v : vec) : float := vx u * vx v + vy u * vy v.
Definition norm (u : vec) : float := PrimFloat.sqrt (dot u u).
End Vec.

(** ** References and the object store *)

Abbreviation ref := positive (only parsing).

(** ** class CelestialBody *)

Module CelestialBody.

Record t := mk {
  name : string;
  mass : float;
  position : vec;
  velocity : vec;
  acceleration : vec;
  color : Z * Z * Z;
  trajectory : list vec
}.

(** [__init__(self, name, mass, position, velocity, color)] *)
Definition init (name : string) (mass : float) (position velocity : vec)
    (color : Z * Z * Z) : t :=
  mk name mass position velocity Vec.zero color [].

Definition default_color : Z * Z * Z := (255, 255, 255)%Z.

(** [apply_force(self, force)]: [self.acceleration = force / self.mass] *)
Definition apply_force (force : vec) (self : t) : t :=
  mk (name self) (mass self) (position self) (velocity self)
     (Vec.div force (mass self)) (color self) (trajectory self).

(** The length bound of the position history. *)
Definition cap : nat := 500.

(** [update(self, dt)] *)
Definition update (dt : float) (self : t) : t :=
  let velocity' := Vec.add (velocity self) (Vec.mul_r (acceleration self) dt) in
  let position' := Vec.add (position self) (Vec.mul_r velocity' dt) in
  let appended := trajectory self ++ [position'] in
  let trajectory' :=
    if decide (cap < length appended) then tail appended (* pop(0) *)
    else appended in
  mk (name self) (mass self) position' velocity' (acceleration self)
     (color self) trajectory'.

End CelestialBody.

(** A reference that the store does not bind reads as [blank]; Python has
    no dangling references, so no run of the program reaches that case. *)
Definition blank : CelestialBody.t :=
  CelestialBody.init "" 0 Vec.zero Vec.zero CelestialBody.default_color.

#[global] Instance CelestialBody_inhabited : Inhabited CelestialBody.t :=
  populate blank.

Abbreviation heap := (gmap positive CelestialBody.t).

(** [deref σ self] is the object behind [self]; [call m self σ] runs the
    method body [m] on it and stores the outcome. *)
Definition deref (σ : heap) (self : ref) : CelestialBody.t := σ !!! self.

Definition call (m : CelestialBody.t → CelestialBody.t) (self : ref)
    (σ : heap) : heap :=
  <[self := m (deref σ self)]> σ.

(** ** class PhysicsEngine *)

Module PhysicsEngine.

Definition G : float := 6.67430e-11.

Record t := mk { bodies : list ref; time : float }.

(** [__init__] *)
Definition init : t := mk [] 0.

(** [add_body]: [self.bodies.append(body)] *)
Definition add_body (body : ref) (self : t) : t :=
  mk (bodies self ++ [body]) (time self).

(** [list.remove]: drop the first entry that is [body]. *)
Fixpoint list_remove (body : ref) (l : list ref) : list ref :=
  match l with
  | [] => []
  | x :: l' => if decide (x = body) then l' else x :: list_remove body l'
  end.

(** [remove_body] *)
Definition remove_body (body : ref) (self : t) : t :=
  if decide (body ∈ bodies self)
  then mk (list_remove body (bodies self)) (time self)
  else self.

(** [clear_all] *)
Definition clear_all (self : t) : t := mk [] 0.

(** The softening distance below which the force is dropped. *)
Definition softening : float := 1e3.

(** [calculate_gravitational_force(self, body1, body2)] *)
Definition calculate_gravitational_force (body1 body2 : CelestialBody.t) : vec :=
  let direction :=
    Vec.sub (CelestialBody.position body2) (CelestialBody.position body1) in
  let distance := Vec.norm direction in
  if (distance <? softening)%float then Vec.zero
  else
    let direction_unit := Vec.div direction distance in
    let force_magnitude :=
      (G * CelestialBody.mass body1 * CelestialBody.mass body2
         / (distance * distance))%float in
    Vec.mul_l force_magnitude direction_unit.

(** The inner loop of [update]: the sum, in list order, of the forces
    that the other bodies exert on [body]. *)
Definition total_force (σ : heap) (others : list ref) (body : ref) : vec :=
  foldl (λ total other_body,
           if decide (body ≠ other_body)
           then Vec.add total
                  (calculate_gravitational_force (deref σ body) (deref σ other_body))
           else total)
        Vec.zero others.

(** First loop of [update]. *)
Definition compute_forces (bs : list ref) (σ : heap) : heap :=
  foldl (λ σ body,
           call (CelestialBody.apply_force (total_force σ bs body)) body σ)
        σ bs.

(** Second loop of [update]. *)
Definition move_bodies (dt : float) (bs : list ref) (σ : heap) : heap :=
  foldl (λ σ body, call (CelestialBody.update dt) body σ) σ bs.

(** [update(self, dt)] *)
Definition update (dt : float) (self : t) (σ : heap) : t * heap :=
  let σ1 := compute_forces (bodies self) σ in
  let σ2 := move_bodies dt (bodies self) σ1 in
  (mk (bodies self) (time self + dt), σ2).

End PhysicsEngine.

(** ** The engine together with the objects it refers to *)

Record world := World { engine : PhysicsEngine.t; objects : heap }.

(** The calls that a driver can make on the core. *)
Inductive request :=
  | AddBody (body : ref)
  | RemoveBody (body : ref)
  | ClearAll
  | Step (dt : float)                        (* PhysicsEngine.update *)
  | ApplyForce (body : ref) (force : vec)    (* CelestialBody.apply_force *)
  | Advance (body : ref) (dt : float).       (* CelestialBody.update *)

Definition perform (c : request) (w : world) : world :=
  match c with
  | AddBody body => World (PhysicsEngine.add_body body (engine w)) (objects w)
  | RemoveBody body => World (PhysicsEngine.remove_body body (engine w)) (objects w)
  | ClearAll => World (PhysicsEngine.clear_all (engine w)) (objects w)
  | Step dt =>
      let '(e, σ) := PhysicsEngine.update dt (engine w) (objects w) in World e σ
  | ApplyForce body force =>
      World (engine w) (call (CelestialBody.apply_force force) body (objects w))
  | Advance body dt =>
      World (engine w) (call (CelestialBody.update dt) body (objects w))
  end.

Definition perform_all (cs : list request) (w : world) : world :=
  foldl (λ w c, perform c w) w cs.

(** [k] calls of [PhysicsEngine.update(dt)] in a row. *)
Definition steps (k : nat) (dt : float) (w : world) : world :=
  Nat.iter k (perform (Step dt)) w.

(** ** class EnergyTester (test.py) *)

Module EnergyTester.

Record t := mk {
  time_points : list float;
  kinetic_energy : list float;
  potential_energy : list float;
  total_energy : list float
}.

Definition init : t := mk [] [] [] [].

(** [calculate_kinetic_energy] *)
Definition calculate_kinetic_energy (w : world) : float :=
  foldl (λ ke body,
           let b := deref (objects w) body in
           let v := Vec.norm (CelestialBody.velocity b) in
           (ke + 0.5 * CelestialBody.mass b * (v * v))%float)
        0%float (PhysicsEngine.bodies (engine w)).

(** [calculate_potential_energy]: every unordered pair once. *)
Fixpoint potential_from (σ : heap) (bs : list ref) (pe : float) : float :=
  match bs with
  | [] => pe
  | body1 :: rest =>
      potential_from σ rest
        (foldl (λ pe body2,
                  let b1 := deref σ body1 in
                  let b2 := deref σ body2 in
                  let r := Vec.norm (Vec.sub (CelestialBody.position b1)
                                             (CelestialBody.position b2)) in
                  if (0 <? r)%float
                  then (pe - PhysicsEngine.G * CelestialBody.mass b1
                               * CelestialBody.mass b2 / r)%float
                  else pe)
               pe rest)
  end.

Definition calculate_potential_energy (w : world) : float :=
  potential_from (objects w) (PhysicsEngine.bodies (engine w)) 0%float.

(** [calculate_total_energy] *)
Definition calculate_total_energy (w : world) : float :=
  (calculate_kinetic_energy w + calculate_potential_energy w)%float.

(** [record_energy] *)
Definition record_energy (w : world) (self : t) : t :=
  let ke := calculate_kinetic_energy w in
  let pe := calculate_potential_energy w in
  let te := (ke + pe)%float in
  mk (time_points self ++ [PhysicsEngine.time (engine w)])
     (kinetic_energy self ++ [ke])
     (potential_energy self ++ [pe])
     (total_energy self ++ [te]).

Record verdict := Verdict {
  initial_energy : float;
  final_energy : float;
  relative_error : float;
  passed : bool
}.

(** The percentage that [run_test] reports for an energy [e] against the
    initial energy [e0]. *)
Definition percent_change (e0 e : float) : float :=
  (abs (e - e0) / abs e0 * 100)%float.

(** [range(a, a + n)] *)
Fixpoint range_from (a : Z) (n : nat) : list Z :=
  match n with
  | 0 => []
  | S n' => a :: range_from (a + 1) n'
  end.

(** One turn of the loop of [run_test]. *)
Definition turn (dt : float) (record_interval : Z) (st : t * world) (step : Z)
    : t * world :=
  let w := perform (Step dt) st.2 in
  let self :=
    if decide (step `mod` record_interval = 0)%Z
    then record_energy w st.1 else st.1 in
  (self, w).

(** The [for step in range(1, num_steps + 1)] loop of [run_test]. *)
Definition simulate (num_steps : nat) (dt : float) (record_interval : Z)
    (self : t) (w : world) : t * world :=
  foldl (turn dt record_interval) (self, w) (range_from 1 num_steps).

(** [run_test(num_steps, dt, record_interval)]; [step % 0] raises, which
    is the [None] below. *)
Definition run_test (num_steps : nat) (dt : float) (record_interval : Z)
    (self : t) (w : world) : option (verdict * t * world) :=
  if decide (record_interval = 0%Z ∧ 0 < num_steps) then None
  else
    let initial := calculate_total_energy w in
    let self := record_energy w self in
    let '(self, w) := simulate num_steps dt record_interval self w in
    let final := default initial (last (total_energy self)) in
    let err := percent_change initial final in
    Some (Verdict initial final err (err <? 5)%float, self, w).

End EnergyTester.

(** ** The scenario of [test.py]: the Sun and the Earth *)

Definition sun : CelestialBody.t :=
  CelestialBody.init "Сонце" 1.989e30 (Vec 0 0) (Vec 0 0) (255, 220, 0)%Z.

Definition earth : CelestialBody.t :=
  CelestialBody.init "Земля" 5.972e24 (Vec 1.496e11 0) (Vec 0 29780)
    (50, 150, 255)%Z.

Definition sun_ref : ref := 1%positive.
Definition earth_ref : ref := 2%positive.

Definition sun_earth : world :=
  perform (AddBody earth_ref)
    (perform (AddBody sun_ref)
       (World PhysicsEngine.init (<[earth_ref := earth]> (<[sun_ref := sun]> ∅)))).

(** ** The life of one body

    A body object receives [apply_force] and [update] calls in some order;
    [visited] lists the positions it took, one per [update], oldest first. *)

Inductive body_call :=
  | Force (force : vec)
  | Move (dt : float).

Definition body_perform (c : body_call) (b : CelestialBody.t) : CelestialBody.t :=
  match c with
  | Force force => CelestialBody.apply_force force b
  | Move dt => CelestialBody.update dt b
  end.

Definition body_run (cs : list body_call) (b : CelestialBody.t) : CelestialBody.t :=
  foldl (λ b c, body_perform c b) b cs.

Definition is_move (c : body_call) : bool :=
  match c with Move _ => true | Force _ => false end.

Definition moves (cs : list body_call) : nat := length (filter is_move cs).

Fixpoint visited (cs : list body_call) (b : CelestialBody.t) : list vec :=
  match cs with
  | [] => []
  | c :: cs' =>
      let b' := body_perform c b in
      if is_move c then CelestialBody.position b' :: visited cs' b'
      else visited cs' b'
  end.

(** The last [n] entries of a list, in their order. *)
Definition last_n {A} (n : nat) (l : list A) : list A := drop (length l - n) l.

(** ** Watching the energy along a run

    [drift_below bound e0 dt n w] takes [n] steps of [dt] from [w] and tells
    whether, after each of them, the total energy is within [bound] percent
    of [e0]. *)



(** ** Vocabulary of the statements *)

(** The engine's clock. *)
Definition clock (w : world) : float := PhysicsEngine.time (engine w).




(** [same_value x y]: [x == y] as IEEE numbers ([+0.0 == -0.0]), or both
    are NaN. *)
Definition same_value (x y : float) : bool :=
  (x =? y)%float || (is_nan x && is_nan y).

Definition same_vec (u v : vec) : bool :=
  same_value (vx u) (vx v) && same_value (vy u) (vy v).

(** On the specification of binary64 ([spec_float]): equal, or both a zero
    of whatever sign. *)
Definition SFsame (x y : spec_float) : Prop :=
  match x, y with
  | S754_zero _, S754_zero _ => True
  | _, _ => x = y
  end.

(** The exponent that binary64 gives a number of [x] digits before the
    binary point. *)
Abbreviation fexp64 := (SpecFloat.fexp prec emax).


(** The sign of a binary64 number; a NaN has none. *)
Definition SFsign (x : spec_float) : option bool :=
  match x with
  | S754_zero s | S754_infinity s | S754_finite s _ _ => Some s
  | S754_nan => None
  end.


(** [x] is a NaN or carries the sign [s]. *)
Definition signed (s : bool) (x : spec_float) : Prop :=
  SFsign x = None ∨ SFsign x = Some s.

(** Two stores that agree on where every body is and on what it weighs. *)
Definition same_places (σ σ' : heap) : Prop :=
  ∀ r, CelestialBody.position (deref σ r) = CelestialBody.position (deref σ' r)
       ∧ CelestialBody.mass (deref σ r) = CelestialBody.mass (deref σ' r).


(** ** Creating bodies

    [main.py] and [test.py] add a body in one way only: they construct it
    and hand the new object to [add_body]. *)

(** [CelestialBody(...)]: the new object gets an identity that no object
    of the store has. *)
Definition new_object (b : CelestialBody.t) (σ : heap) : ref * heap :=
  let r := fresh (dom σ) in (r, <[r := b]> σ).

(** [x = CelestialBody(...); physics_engine.add_body(x)] *)
Definition spawn (b : CelestialBody.t) (w : world) : world :=
  let '(r, σ) := new_object b (objects w) in
  World (PhysicsEngine.add_body r (engine w)) σ.

Definition spawn_all (bs : list CelestialBody.t) (w : world) : world :=
  foldl (λ w b, spawn b w) w bs.

(** The bodies of the collection, in order, as they are now. *)
Definition cast (w : world) : list CelestialBody.t :=
  deref (objects w) <$> PhysicsEngine.bodies (engine w).

(** Every entry of the collection is a stored object and none is repeated. *)
Definition well_formed (w : world) : Prop :=
  NoDup (PhysicsEngine.bodies (engine w))
  ∧ ∀ r, r ∈ PhysicsEngine.bodies (engine w) → r ∈ dom (objects w).

(** ** class SimulationController: what drives the engine

    Rendering, the text fields, [add_planet_from_input] (which parses text
    and draws random colours), [load_three_body] (which needs [cos] and
    [sin]) and [export_report] are left out. *)

Definition mercury : CelestialBody.t :=
  CelestialBody.init "Меркурій" 3.3e23 (Vec 5.79e10 0) (Vec 0 47900)
    (169, 169, 169)%Z.

Definition venus : CelestialBody.t :=
  CelestialBody.init "Венера" 4.87e24 (Vec 1.08e11 0) (Vec 0 35000)
    (255, 198, 73)%Z.

Definition mars : CelestialBody.t :=
  CelestialBody.init "Марс" 6.39e23 (Vec 2.28e11 0) (Vec 0 24000)
    (255, 100, 50)%Z.

Module SimulationController.

Record t := mk {
  physics_engine : world;
  is_running : bool;
  is_paused : bool;
  simulation_speed : nat;
  dt : float
}.

Definition with_engine (w : world) (self : t) : t :=
  mk w (is_running self) (is_paused self) (simulation_speed self) (dt self).

(** [load_example_system] *)
Definition load_example_system (self : t) : t :=
  with_engine (spawn earth (spawn sun (physics_engine self))) self.

(** [__init__] *)
Definition init : t :=
  load_example_system (mk (World PhysicsEngine.init ∅) true true 1 1000).

(** [load_solar_system] *)
Definition load_solar_system (self : t) : t :=
  let w := perform ClearAll (physics_engine self) in
  let w := spawn_all [sun; mercury; venus; earth; mars] w in
  mk w (is_running self) true (simulation_speed self) (dt self).

(** [load_binary_stars] *)
Definition load_binary_stars (self : t) : t :=
  let w := perform ClearAll (physics_engine self) in
  let m := 1e30%float in
  let d := 1e11%float in
  let v := PrimFloat.sqrt (PhysicsEngine.G * m / d) in
  let star_a :=
    CelestialBody.init "Зірка A" m (Vec (d / 2) 0) (Vec 0 v) (255, 100, 100)%Z in
  let star_b :=
    CelestialBody.init "Зірка B" m (Vec (- d / 2) 0) (Vec 0 (- v))
      (100, 100, 255)%Z in
  mk (spawn_all [star_a; star_b] w) (is_running self) true
     (simulation_speed self) (dt self).

(** [update]: the physics of one frame. *)
Definition update (self : t) : t :=
  if is_paused self then self
  else with_engine
         (steps (simulation_speed self) (dt self) (physics_engine self)) self.

(** The buttons whose handlers in [handle_events] act on the engine or on
    the pace of the simulation.  The rectangles of the buttons do not
    overlap, so a click reaches one handler. *)
Inductive button :=
  | Start | Pause | Stop | Clear
  | Speed1x | Speed2x | Speed5x | Speed10x
  | PresetSolar | PresetBinary.

(** What [handle_events] does for a click inside a button. *)
Definition press (b : button) (self : t) : t :=
  match b with
  | Start =>
      mk (physics_engine self) (is_running self) false (simulation_speed self)
         (dt self)
  | Pause =>
      mk (physics_engine self) (is_running self) true (simulation_speed self)
         (dt self)
  | Stop =>
      load_example_system
        (mk (perform ClearAll (physics_engine self)) (is_running self) true
            (simulation_speed self) (dt self))
  | Clear => with_engine (perform ClearAll (physics_engine self)) self
  | Speed1x => mk (physics_engine self) (is_running self) (is_paused self) 1 (dt self)
  | Speed2x => mk (physics_engine self) (is_running self) (is_paused self) 2 (dt self)
  | Speed5x => mk (physics_engine self) (is_running self) (is_paused self) 5 (dt self)
  | Speed10x => mk (physics_engine self) (is_running self) (is_paused self) 10 (dt self)
  | PresetSolar => load_solar_system self
  | PresetBinary => load_binary_stars self
  end.

(** What the main loop does to the simulation: clicks, and the [update] of
    each frame. *)
Inductive action :=
  | Click (b : button)
  | Frame.

Definition act (a : action) (self : t) : t :=
  match a with
  | Click b => press b self
  | Frame => update self
  end.

Definition run (acts : list action) (self : t) : t :=
  foldl (λ self a, act a self) self acts.

End SimulationController.

(** ** class InputField: the text and the focus (the rest is drawing) *)

Module InputField.

(** A Python [str], as the list of its code points. *)
Abbreviation str := (list N) (only parsing).

Record t := mk {
  value : str;
  active : bool
}.

(** [__init__] *)
Definition init (default_value : str) : t := mk default_value false.

Inductive key := K_BACKSPACE | K_RETURN | K_other.

(** The events that [handle_event] tells apart; [inside] is the answer of
    [self.rect.collidepoint(event.pos)]. *)
Inductive event :=
  | MOUSEBUTTONDOWN (inside : bool)
  | KEYDOWN (k : key) (unicode : str)
  | other_event.

(** [handle_event] *)
Definition handle_event (ev : event) (self : t) : t :=
  let self :=
    match ev with
    | MOUSEBUTTONDOWN inside => mk (value self) inside
    | _ => self
    end in
  match ev with
  | KEYDOWN k unicode =>
      if active self then
        match k with
        | K_BACKSPACE => mk (removelast (value self)) (active self)
        | K_RETURN => mk (value self) false
        | K_other =>
            if decide (length (value self) < 20)
            then mk (value self ++ unicode) (active self)
            else self
        end
      else self
  | _ => self
  end.

Definition handle_events (evs : list event) (self : t) : t :=
  foldl (λ self ev, handle_event ev self) self evs.

(** A key press carries at most one character. *)
Definition one_key (ev : event) : Prop :=
  match ev with
  | KEYDOWN _ unicode => length unicode ≤ 1
  | _ => True
  end.

End InputField.

(** ** EnergyTester.save_report: the rows of the table of detailed data *)

Module EnergyReport.
Import EnergyTester.

Inductive exception := IndexError | ValueError.

(** [range(0, stop, step)] for a positive [step]: the
    [(stop - 1) // step + 1] items [0], [step], [2 * step], ... when [stop]
    is positive, none otherwise. *)
Definition range_step (stop step : nat) : list nat :=
  if decide (0 < stop)
  then (λ j, j * step) <$> seq 0 (S ((stop - 1) / step))
  else [].

(** The numbers of one line of the table, before they are formatted. *)
Record row := Row {
  day : float;
  ke : float;
  pe : float;
  te : float;
  dev : float
}.

(** The body of the loop over the sampled records; an index out of range
    raises [IndexError], the [None] below. *)
Definition detail_row (self : EnergyTester.t) (initial : float) (i : nat)
    : option row :=
  t ← time_points self !! i;
  ke ← kinetic_energy self !! i;
  pe ← potential_energy self !! i;
  te ← total_energy self !! i;
  Some (Row (t / 86400) ke pe te ((te - initial) / abs initial * 100)).

(** What [save_report] reads from the records: [time_points[-1]] for the
    duration, [total_energy[0]], and the rows sampled by
    [range(0, len(time_points), len(time_points) // 20)], where a step of 0
    raises [ValueError].  The result is the rows written, or the exception
    that ends the call. *)
Definition save_report (self : EnergyTester.t) : exception + list row :=
  match last (time_points self) with
  | None => inl IndexError
  | Some _ =>
      match total_energy self !! 0 with
      | None => inl IndexError
      | Some initial =>
          let n := length (time_points self) in
          if decide (n / 20 = 0) then inl ValueError
          else
            match mapM (detail_row self initial) (range_step n (n / 20)) with
            | Some rows => inr rows
            | None => inl IndexError
            end
      end
  end.

End EnergyReport.

(** ** More vocabulary of the statements *)

(** The history of a body ends where the body is. *)
Definition ends_at_position (b : CelestialBody.t) : Prop :=
  CelestialBody.trajectory b = []
  ∨ last (CelestialBody.trajectory b) = Some (CelestialBody.position b).

(** [x == -y] as IEEE numbers, or both are NaN. *)
Definition opposite (x y : float) : bool := same_value x (- y).

(** Two bodies that are each other's image under the point reflection in
    the origin: opposite positions and opposite velocities. *)
Definition mirrored (a b : CelestialBody.t) : bool :=
  same_vec (CelestialBody.position a) (Vec.neg (CelestialBody.position b))
  && same_vec (CelestialBody.velocity a) (Vec.neg (CelestialBody.velocity b)).

(** [x] is a NaN, a zero, or a number on the side [s] of zero ([true]:
    below zero, [false]: above). *)
Definition sided (s : bool) (x : spec_float) : Prop :=
  match x with
  | S754_nan | S754_zero _ => True
  | S754_infinity s' | S754_finite s' _ _ => s' = s
  end.

(** The steps after which [run_test] takes a record: step 0 (the initial
    record) and every [step] up to [num_steps] with
    [step % record_interval == 0]. *)
Definition recorded_steps (num_steps : nat) (record_interval : Z) : list nat :=
  filter (λ step, (Z.of_nat step `mod` record_interval = 0)%Z)
         (seq 0 (S num_steps)).

(** The tester [self] after one [record_energy] in each of the states
    reached from [w] by the numbers of steps [ks]. *)
Definition records_of (dt : float) (w : world) (self : EnergyTester.t)
    (ks : list nat) : EnergyTester.t :=
  EnergyTester.mk
    (EnergyTester.time_points self ++ ((λ k, clock (steps k dt w)) <$> ks))
    (EnergyTester.kinetic_energy self
       ++ ((λ k, EnergyTester.calculate_kinetic_energy (steps k dt w)) <$> ks))
    (EnergyTester.potential_energy self
       ++ ((λ k, EnergyTester.calculate_potential_energy (steps k dt w)) <$> ks))
    (EnergyTester.total_energy self
       ++ ((λ k, EnergyTester.calculate_total_energy (steps k dt w)) <$> ks)).

(** The four lists of records have one length. *)
Definition aligned (self : EnergyTester.t) : Prop :=
  length (EnergyTester.kinetic_energy self) = length (EnergyTester.time_points self)
  ∧ length (EnergyTester.potential_energy self)
    = length (EnergyTester.time_points self)
  ∧ length (EnergyTester.total_energy self) = length (EnergyTester.time_points self).

(** * Properties *)

(** ** The object store *)

Section Store.
Implicit Types (σ : heap) (m : CelestialBody.t → CelestialBody.t).

Lemma deref_call_eq m self σ : deref (call m self σ) self = m (deref σ self).
Proof. unfold deref, call. by rewrite lookup_total_insert_eq. Qed.

Lemma deref_call_ne m self other σ :
  self ≠ other → deref (call m self σ) other = deref σ other.
Proof. intros. unfold deref, call. by rewrite lookup_total_insert_ne. Qed.

Lemma deref_call m self other σ :
  deref (call m self σ) other =
  if decide (self = other) then m (deref σ self) else deref σ other.
Proof.
  case_decide; [subst; apply deref_call_eq | by apply deref_call_ne].
Qed.

(** Running the same method over a list of references applies it to each
    object as many times as the reference occurs. *)
Lemma deref_foldl_call m (bs : list ref) σ other :
  deref (foldl (λ σ body, call m body σ) σ bs) other =
  Nat.iter (count_occ Pos.eq_dec bs other) m (deref σ other).
Proof.
  revert σ. induction bs as [|body bs IH]; intros σ; [done|].
  cbn [foldl count_occ]. rewrite IH, deref_call.
  destruct (Pos.eq_dec body other) as [->|Hne].
  - rewrite decide_True by done. by rewrite Nat.iter_succ_r.
  - by rewrite decide_False.
Qed.
End Store.

(** ** Bounded histories *)

Section LastN.
Context {A : Type}.
Implicit Types l k : list A.

Lemma length_last_n n l : length (last_n n l) = length l `min` n.
Proof. unfold last_n. rewrite length_drop. lia. Qed.

Lemma last_n_all n l : length l ≤ n → last_n n l = l.
Proof.
  intros Hle. unfold last_n.
  by replace (length l - n) with 0 by lia.
Qed.

Lemma last_n_app n l k : last_n n (last_n n l ++ k) = last_n n (l ++ k).
Proof.
  unfold last_n at 1 3. rewrite !length_app, length_last_n.
  unfold last_n. rewrite <- (drop_app_le l k (length l - n)) by lia.
  rewrite drop_drop. f_equal. lia.
Qed.

Lemma last_n_app_long n l k : n ≤ length k → last_n n (l ++ k) = last_n n k.
Proof.
  intros Hle. unfold last_n. rewrite length_app.
  replace (length l + length k - n) with (length l + (length k - n)) by lia.
  by rewrite drop_app_add.
Qed.

(** Appending one entry and popping the head when the bound is exceeded
    keeps the last [n] entries. *)
Lemma push_pop_last_n n l x :
  length l ≤ n →
  (if decide (n < length (l ++ [x])) then tail (l ++ [x]) else l ++ [x])
  = last_n n (l ++ [x]).
Proof.
  intros Hle. rewrite length_app. cbn [length].
  case_decide as Hlt.
  - unfold last_n. rewrite length_app. cbn [length].
    replace (length l + 1 - n) with 1 by lia.
    by destruct l.
  - rewrite last_n_all; [done|]. rewrite length_app. cbn [length]. lia.
Qed.
End LastN.

(** ** One body *)

Section Body.
Import CelestialBody.
Implicit Types (b : CelestialBody.t) (cs : list body_call).

Lemma trajectory_update dt b :
  length (trajectory b) ≤ cap →
  trajectory (update dt b) =
  last_n cap (trajectory b ++ [position (update dt b)]).
Proof. intros Hle. cbn [update trajectory position]. by apply push_pop_last_n. Qed.

Lemma length_trajectory_update dt b :
  length (trajectory b) ≤ cap → length (trajectory (update dt b)) ≤ cap.
Proof.
  intros Hle. rewrite trajectory_update by done. rewrite length_last_n. lia.
Qed.

Lemma length_trajectory_perform c b :
  length (trajectory b) ≤ cap → length (trajectory (body_perform c b)) ≤ cap.
Proof. destruct c; [done | apply length_trajectory_update]. Qed.

Lemma length_trajectory_run cs b :
  length (trajectory b) ≤ cap → length (trajectory (body_run cs b)) ≤ cap.
Proof.
  revert b. induction cs as [|c cs IH]; intros b Hle; [done|].
  apply IH, length_trajectory_perform, Hle.
Qed.

Lemma length_visited cs b : length (visited cs b) = moves cs.
Proof.
  revert b. unfold moves.
  induction cs as [|c cs IH]; intros b; [done|].
  cbn [visited filter]. destruct c; cbn; by rewrite ?IH.
Qed.

(** The history after any run is the tail end of the old history followed
    by the positions visited since. *)
Lemma trajectory_run cs b :
  length (trajectory b) ≤ cap →
  trajectory (body_run cs b) = last_n cap (trajectory b ++ visited cs b).
Proof.
  revert b. induction cs as [|c cs IH]; intros b Hle.
  - cbn. by rewrite app_nil_r, last_n_all.
  - cbn [body_run foldl visited]. fold (body_run cs (body_perform c b)).
    rewrite IH by by apply length_trajectory_perform.
    destruct c as [force|dt]; cbn [is_move body_perform]; [done|].
    rewrite trajectory_update by done.
    rewrite last_n_app. by rewrite <- app_assoc.
Qed.
End Body.

Section BodyClaims.
Import CelestialBody.

(** C3.  [CelestialBody.update(dt)] on the object behind [self] first adds
    [acceleration * dt] to the velocity, then adds the new velocity times
    [dt] to the position, then appends the new position to the trajectory
    (the head is popped when that makes more than 500 entries, so the new
    position is always the last entry).  Name, mass, acceleration and
    colour keep their values and no other object of the store changes.  The
    method is a total function of the store: it has no failing path. *)
Theorem update_semi_implicit_euler (dt : float) (self : ref) (σ : heap) :
  let b := deref σ self in
  let σ' := call (update dt) self σ in
  let b' := deref σ' self in
  velocity b' = Vec.add (velocity b) (Vec.mul_r (acceleration b) dt)
  ∧ position b' = Vec.add (position b) (Vec.mul_r (velocity b') dt)
  ∧ trajectory b' =
      drop (if decide (cap ≤ length (trajectory b)) then 1 else 0)
           (trajectory b ++ [position b'])
  ∧ last (trajectory b') = Some (position b')
  ∧ name b' = name b ∧ mass b' = mass b
  ∧ acceleration b' = acceleration b ∧ color b' = color b
  ∧ ∀ other, other ≠ self → deref σ' other = deref σ other.
Proof.
  intros b σ' b'. subst b' σ'. rewrite deref_call_eq. fold b.
  assert (Htraj : trajectory (update dt b) =
      drop (if decide (cap ≤ length (trajectory b)) then 1 else 0)
           (trajectory b ++ [position (update dt b)])).
  { cbn [update trajectory position]. rewrite length_app. cbn [length].
    destruct (decide (cap < length (trajectory b) + 1)),
             (decide (cap ≤ length (trajectory b))); try lia; [|done].
    by destruct (trajectory b). }
  repeat split; try done.
  - rewrite Htraj.
    destruct (decide (cap ≤ length (trajectory b))) as [Hfull|Hroom].
    + destruct (trajectory b) as [|p l] eqn:E; [cbn in Hfull; unfold cap in Hfull; lia|].
      cbn [app]. rewrite skipn_cons, drop_0. apply last_snoc.
    + rewrite drop_0. apply last_snoc.
  - intros other Hne. by apply deref_call_ne.
Qed.
End BodyClaims.

(** ** The engine *)

Section Engine.
Import PhysicsEngine.
Implicit Types (σ : heap) (bs : list ref) (e : PhysicsEngine.t).

Lemma same_places_refl σ : same_places σ σ.
Proof. by intros r. Qed.

Lemma same_places_apply_force σ σ' force body :
  same_places σ σ' →
  same_places σ (call (CelestialBody.apply_force force) body σ').
Proof.
  intros H r. rewrite deref_call. case_decide; [subst; cbn|]; apply H.
Qed.

(** The force reads positions and masses only. *)
Lemma force_reads_places (a a' b b' : CelestialBody.t) :
  CelestialBody.position a = CelestialBody.position a' →
  CelestialBody.mass a = CelestialBody.mass a' →
  CelestialBody.position b = CelestialBody.position b' →
  CelestialBody.mass b = CelestialBody.mass b' →
  calculate_gravitational_force a b = calculate_gravitational_force a' b'.
Proof.
  intros Hp Hm Hp' Hm'. unfold calculate_gravitational_force.
  by rewrite Hp, Hm, Hp', Hm'.
Qed.

Lemma total_force_reads_places σ σ' bs body :
  same_places σ σ' → total_force σ bs body = total_force σ' bs body.
Proof.
  intros H. unfold total_force. generalize Vec.zero.
  induction bs as [|other bs IH]; intros acc; [done|].
  cbn [foldl]. rewrite IH.
  case_decide; [|done].
  by rewrite (force_reads_places _ (deref σ' body) _ (deref σ' other))
    by apply H.
Qed.

(** The inner loop as a sum over the other bodies. *)
Lemma total_force_sum σ bs body :
  total_force σ bs body =
  foldl Vec.add Vec.zero
    (map (λ other, calculate_gravitational_force (deref σ body) (deref σ other))
         (filter (λ other, body ≠ other) bs)).
Proof.
  unfold total_force. generalize Vec.zero.
  induction bs as [|other bs IH]; intros acc; [done|].
  cbn [foldl]. rewrite filter_cons.
  case_decide; cbn [map foldl]; apply IH.
Qed.

Lemma apply_force_twice f f' (b : CelestialBody.t) :
  CelestialBody.apply_force f (CelestialBody.apply_force f' b)
  = CelestialBody.apply_force f b.
Proof. done. Qed.

(** The first loop, started on the tail [todo] of the body list from a
    store that still has every body where [σ] has it. *)
Lemma compute_forces_from σ bs todo σ' body :
  same_places σ σ' →
  deref (foldl (λ σ b, call (CelestialBody.apply_force (total_force σ bs b)) b σ)
               σ' todo) body
  = if decide (body ∈ todo)
    then CelestialBody.apply_force (total_force σ bs body) (deref σ' body)
    else deref σ' body.
Proof.
  revert σ'. induction todo as [|b todo IH]; intros σ' Hsame.
  - cbn [foldl]. by rewrite decide_False by apply not_elem_of_nil.
  - cbn [foldl]. rewrite IH by by apply same_places_apply_force.
    rewrite deref_call, <- (total_force_reads_places σ σ') by done.
    destruct (decide (b = body)) as [->|Hne].
    + rewrite apply_force_twice.
      rewrite (decide_True (P := body ∈ body :: todo))
        by (apply elem_of_cons; by left).
      by case_decide.
    + destruct (decide (body ∈ todo)) as [Hin|Hnin].
      * by rewrite decide_True by (apply elem_of_cons; by right).
      * rewrite decide_False; [done|].
        intros [->|?]%elem_of_cons; done.
Qed.

Lemma deref_compute_forces σ bs body :
  deref (compute_forces bs σ) body
  = if decide (body ∈ bs)
    then CelestialBody.apply_force (total_force σ bs body) (deref σ body)
    else deref σ body.
Proof. apply compute_forces_from, same_places_refl. Qed.

Lemma deref_move_bodies dt bs σ body :
  deref (move_bodies dt bs σ) body
  = Nat.iter (count_occ Pos.eq_dec bs body) (CelestialBody.update dt) (deref σ body).
Proof. apply deref_foldl_call. Qed.

Lemma count_occ_NoDup bs body :
  NoDup bs → body ∈ bs → count_occ Pos.eq_dec bs body = 1.
Proof.
  intros Hnd Hin. apply list_elem_of_In in Hin.
  apply NoDup_ListNoDup in Hnd.
  pose proof (proj1 (List.NoDup_count_occ Pos.eq_dec bs) Hnd body).
  apply (count_occ_In Pos.eq_dec) in Hin. lia.
Qed.

Lemma count_occ_absent bs body :
  body ∉ bs → count_occ Pos.eq_dec bs body = 0.
Proof.
  intros Hnin. apply count_occ_not_In. by rewrite <- list_elem_of_In.
Qed.
End Engine.

(** ** What a request can do to one object

    Whatever the request, the object behind a reference is reached from the
    old one by [apply_force] and [update] calls only. *)

Section Frame.
Import PhysicsEngine.
Variable P : CelestialBody.t → Prop.
Hypothesis P_apply_force : ∀ force b, P b → P (CelestialBody.apply_force force b).
Hypothesis P_update : ∀ dt b, P b → P (CelestialBody.update dt b).

Lemma P_iter_update dt n b : P b → P (Nat.iter n (CelestialBody.update dt) b).
Proof. intros Hb. induction n as [|n IH]; [done|]. cbn. by apply P_update. Qed.

Lemma P_engine_update dt e σ body :
  P (deref σ body) → P (deref (update dt e σ).2 body).
Proof.
  intros Hb. cbn [update snd].
  rewrite deref_move_bodies, deref_compute_forces.
  apply P_iter_update. case_decide; [by apply P_apply_force | done].
Qed.

Lemma P_perform c w body :
  P (deref (objects w) body) → P (deref (objects (perform c w)) body).
Proof.
  intros Hb. destruct c as [r|r| |dt|r force|r dt]; cbn [perform objects]; try done.
  - pose proof (P_engine_update dt (engine w) (objects w) body Hb) as H.
    by destruct (update dt (engine w) (objects w)).
  - rewrite deref_call. case_decide; [subst; by apply P_apply_force | done].
  - rewrite deref_call. case_decide; [subst; by apply P_update | done].
Qed.

Lemma P_perform_all cs w body :
  P (deref (objects w) body) → P (deref (objects (perform_all cs w)) body).
Proof.
  revert w. induction cs as [|c cs IH]; intros w Hb; [done|].
  cbn [perform_all foldl]. by apply IH, P_perform.
Qed.
End Frame.

Section BodyHistoryClaim.
Import CelestialBody.

(** C4.  A body's trajectory never holds more than 500 positions: the
    bound is kept by every [update], hence by any sequence of calls on a
    body made by the constructor and by any sequence of requests to the
    engine; once a body has been through more than
    500 [update] calls its trajectory has exactly 500 entries, which are
    the 500 most recent positions, oldest first. *)
Theorem trajectory_capped :
  (∀ dt b, length (trajectory b) ≤ 500 →
           length (trajectory (update dt b)) ≤ 500)
  ∧ (∀ cs n m p v c, length (trajectory (body_run cs (init n m p v c))) ≤ 500)
  ∧ (∀ cs w body, length (trajectory (deref (objects w) body)) ≤ 500 →
       length (trajectory (deref (objects (perform_all cs w)) body)) ≤ 500)
  ∧ (∀ cs b, length (trajectory b) ≤ 500 → 500 < moves cs →
             length (trajectory (body_run cs b)) = 500
             ∧ trajectory (body_run cs b) = last_n 500 (visited cs b)).
Proof.
  split; [|split; [|split]].
  - intros dt b. apply length_trajectory_update.
  - intros. apply length_trajectory_run. cbn. unfold cap. lia.
  - intros cs w body.
    apply (P_perform_all (λ b, length (trajectory b) ≤ 500)); [done|].
    intros dt b. apply length_trajectory_update.
  - intros cs b Hb Hcs.
    assert (Heq : trajectory (body_run cs b) = last_n 500 (visited cs b)).
    { rewrite (trajectory_run cs b Hb).
      apply last_n_app_long. rewrite length_visited. unfold cap. lia. }
    split; [|done].
    rewrite Heq, length_last_n, length_visited. lia.
Qed.
End BodyHistoryClaim.

Section EngineClaims.
Import PhysicsEngine.
Implicit Types (σ : heap) (e : PhysicsEngine.t) (w : world).

(** C2.  [PhysicsEngine.update(dt)] works in two phases.  Phase one gives
    every body of the collection the acceleration [net / mass], where
    [net] is the sum, in collection order, of the pairwise forces that the
    other entries (those that are not the body itself) exert on it, all of
    them taken at the positions the bodies had before the call.  Phase two
    then runs [CelestialBody.update(dt)] once per entry of the collection
    on the store that phase one left.  Last, the time grows by [dt]; the
    collection is the same and bodies outside it are untouched.  For a
    collection without repeated entries this is one semi-implicit Euler
    step per body, driven by forces that no body's move has disturbed. *)
Theorem update_two_phase (dt : float) e σ :
  let bs := bodies e in
  let e' := (update dt e σ).1 in
  let σ' := (update dt e σ).2 in
  let net body :=
    foldl Vec.add Vec.zero
      (map (λ other, calculate_gravitational_force (deref σ body) (deref σ other))
           (filter (λ other, body ≠ other) bs)) in
  (∀ body, deref (compute_forces bs σ) body =
           if decide (body ∈ bs)
           then CelestialBody.apply_force (net body) (deref σ body)
           else deref σ body)
  ∧ (∀ body, deref σ' body =
             Nat.iter (count_occ Pos.eq_dec bs body) (CelestialBody.update dt)
                      (deref (compute_forces bs σ) body))
  ∧ bodies e' = bs
  ∧ time e' = (time e + dt)%float
  ∧ (∀ body, body ∉ bs → deref σ' body = deref σ body)
  ∧ (NoDup bs → ∀ body, body ∈ bs →
       let b := deref σ body in
       let b' := deref σ' body in
       CelestialBody.acceleration b' = Vec.div (net body) (CelestialBody.mass b)
       ∧ CelestialBody.velocity b' =
           Vec.add (CelestialBody.velocity b)
                   (Vec.mul_r (CelestialBody.acceleration b') dt)
       ∧ CelestialBody.position b' =
           Vec.add (CelestialBody.position b)
                   (Vec.mul_r (CelestialBody.velocity b') dt)).
Proof.
  intros bs e' σ' net. subst e' σ'. cbn [update fst snd]. fold bs.
  assert (Hone : ∀ body, deref (compute_forces bs σ) body =
            if decide (body ∈ bs)
            then CelestialBody.apply_force (net body) (deref σ body)
            else deref σ body).
  { intros body. rewrite deref_compute_forces. unfold net.
    by rewrite total_force_sum. }
  split; [exact Hone|]. split; [apply deref_move_bodies|].
  split; [done|]. split; [done|]. split.
  - intros body Hnin. rewrite deref_move_bodies, count_occ_absent by done.
    cbn [Nat.iter]. rewrite Hone. by rewrite decide_False.
  - intros Hnd body Hin. cbn zeta.
    rewrite deref_move_bodies, count_occ_NoDup by done.
    cbn [Nat.iter]. rewrite Hone, decide_True by done. done.
Qed.

(** C7.  [clear_all] leaves an empty collection and the time [0.0],
    whatever the engine held; a second [clear_all] changes nothing more;
    the body objects themselves are not touched. *)
Theorem clear_all_idempotent e :
  bodies (clear_all e) = []
  ∧ time (clear_all e) = 0%float
  ∧ clear_all (clear_all e) = clear_all e
  ∧ ∀ w, perform ClearAll (perform ClearAll w) = perform ClearAll w
         ∧ engine (perform ClearAll w) = init
         ∧ objects (perform ClearAll w) = objects w.
Proof. done. Qed.

Lemma list_remove_first body (l : list ref) :
  body ∈ l →
  ∃ before after,
    l = before ++ body :: after ∧ (body ∉ before)
    ∧ list_remove body l = before ++ after.
Proof.
  induction l as [|x l IH]; intros Hin; [by apply elem_of_nil in Hin|].
  cbn [list_remove]. destruct (decide (x = body)) as [->|Hne].
  - exists [], l. split; [done|]. split; [apply not_elem_of_nil | done].
  - apply elem_of_cons in Hin as [->|Hin]; [done|].
    destruct (IH Hin) as (before & after & -> & Hnin & ->).
    exists (x :: before), after. split; [done|]. split; [|done].
    apply not_elem_of_cons. split; [congruence | done].
Qed.

(** C8.  [remove_body(body)] takes out the first entry of the collection
    that is the object [body] (identity comparison) and keeps the others in
    their order; when [body] is not in the collection the engine is left as
    it was.  Either way the time and the body objects are unchanged, and
    the call has no failing path. *)
Theorem remove_body_first_or_noop (body : ref) e :
  (body ∈ bodies e →
     ∃ before after,
       bodies e = before ++ body :: after ∧ (body ∉ before)
       ∧ bodies (remove_body body e) = before ++ after)
  ∧ (body ∉ bodies e → remove_body body e = e)
  ∧ time (remove_body body e) = time e
  ∧ ∀ w, objects (perform (RemoveBody body) w) = objects w
         ∧ (body ∉ bodies (engine w) → perform (RemoveBody body) w = w).
Proof.
  unfold remove_body. repeat split.
  - intros Hin. rewrite decide_True by done. by apply list_remove_first.
  - intros Hnin. by rewrite decide_False.
  - by case_decide.
  - intros Hnin. destruct w as [e' σ]. cbn in *. unfold remove_body.
    by rewrite decide_False.
Qed.

(** C10.  No call of the core writes a mass: after any request, and after
    any sequence of requests, every object weighs what it weighed before.
    [apply_force] in particular writes the acceleration and nothing else. *)
Theorem mass_never_written :
  (∀ c w body,
     CelestialBody.mass (deref (objects (perform c w)) body)
     = CelestialBody.mass (deref (objects w) body))
  ∧ (∀ cs w body,
       CelestialBody.mass (deref (objects (perform_all cs w)) body)
       = CelestialBody.mass (deref (objects w) body))
  ∧ (∀ force b,
       let b' := CelestialBody.apply_force force b in
       CelestialBody.name b' = CelestialBody.name b
       ∧ CelestialBody.mass b' = CelestialBody.mass b
       ∧ CelestialBody.position b' = CelestialBody.position b
       ∧ CelestialBody.velocity b' = CelestialBody.velocity b
       ∧ CelestialBody.color b' = CelestialBody.color b
       ∧ CelestialBody.trajectory b' = CelestialBody.trajectory b).
Proof.
  split; [|split].
  - intros c w body.
    by apply (P_perform (λ b, CelestialBody.mass b
                              = CelestialBody.mass (deref (objects w) body))).
  - intros cs w body.
    by apply (P_perform_all (λ b, CelestialBody.mass b
                                  = CelestialBody.mass (deref (objects w) body))).
  - done.
Qed.
End EngineClaims.

(** ** Signs in binary64 arithmetic *)

Section Signs.
Variables prec emax : Z.

Lemma SFsame_refl x : SFsame x x.
Proof. by destruct x. Qed.

Lemma binary_round_aux_opp s m e l :
  binary_round_aux prec emax (negb s) m e l
  = SFopp (binary_round_aux prec emax s m e l).
Proof.
  unfold binary_round_aux.
  destruct (shr_fexp prec emax m e l) as [mrs' e'].
  destruct (shr_fexp prec emax _ e' loc_Exact) as [mrs'' e''].
  destruct (shr_m mrs''); [done| |done].
  by destruct (Z.leb e'' _).
Qed.

Lemma binary_round_opp s m e :
  binary_round prec emax (negb s) m e = SFopp (binary_round prec emax s m e).
Proof.
  unfold binary_round. destruct (shl_align _ _ _). apply binary_round_aux_opp.
Qed.

Lemma binary_normalize_opp m e :
  SFsame (binary_normalize prec emax (- m) e false)
         (SFopp (binary_normalize prec emax m e false)).
Proof.
  destruct m as [|p|p]; cbn [Z.opp binary_normalize]; [done| |].
  - rewrite <- binary_round_opp. apply SFsame_refl.
  - rewrite <- binary_round_opp. apply SFsame_refl.
Qed.

Lemma SFsub_opp x y :
  SFsame (SFsub prec emax y x) (SFopp (SFsub prec emax x y)).
Proof.
  destruct x as [sx|sx| |sx mx ex], y as [sy|sy| |sy my ey];
    try done; try (by destruct sx, sy); try (by destruct sx); try (by destruct sy).
  cbn [SFsub]. rewrite (Z.min_comm ey ex).
  set (a := cond_Zopp sx _). set (b := cond_Zopp sy _).
  replace (b - a)%Z with (- (a - b))%Z by lia.
  apply binary_normalize_opp.
Qed.

Lemma SFmul_opp_r x y y' :
  SFsame y' (SFopp y) →
  SFsame (SFmul prec emax x y') (SFopp (SFmul prec emax x y)).
Proof.
  destruct x as [sx|sx| |sx mx ex], y as [sy|sy| |sy my ey],
           y' as [sy'|sy'| |sy' my' ey']; cbn [SFsame SFopp]; intros H;
    try done; try discriminate H; try (injection H as ->); subst;
    cbn [SFmul SFopp]; rewrite <- ?negb_xorb_r; try done.
  rewrite binary_round_aux_opp. apply SFsame_refl.
Qed.

Lemma SFdiv_opp_l x x' d :
  SFsame x' (SFopp x) →
  SFsame (SFdiv prec emax x' d) (SFopp (SFdiv prec emax x d)).
Proof.
  destruct x as [sx|sx| |sx mx ex], d as [sd|sd| |sd md ed],
           x' as [sx'|sx'| |sx' mx' ex']; cbn [SFsame SFopp]; intros H;
    try done; try discriminate H; try (injection H as ->); subst;
    cbn [SFdiv SFopp]; rewrite <- ?negb_xorb_l; try done.
  destruct (SFdiv_core_binary _ _ _ _ _ _) as [[mz ez] lz].
  rewrite binary_round_aux_opp. apply SFsame_refl.
Qed.

Lemma SFmul_square_opp x x' :
  SFsame x' (SFopp x) → SFmul prec emax x' x' = SFmul prec emax x x.
Proof.
  destruct x as [sx|sx| |sx mx ex], x' as [sx'|sx'| |sx' mx' ex'];
    cbn [SFsame SFopp]; intros H;
    try done; try discriminate H; try (injection H as ->); subst;
    cbn [SFmul]; rewrite ?xorb_nilpotent; try done.
Qed.

Lemma SFcompare_refl x : x ≠ S754_nan → SFcompare x x = Some Eq.
Proof.
  destruct x as [s|s| |s m e]; intros Hx; try done; cbn [SFcompare].
  - by destruct s.
  - rewrite Z.compare_refl, Pos.compare_cont_refl. by destruct s.
Qed.

Lemma SFsame_eqb x y :
  SFsame x y → SFeqb x y = true ∨ (x = S754_nan ∧ y = S754_nan).
Proof.
  destruct x as [s|s| |s m e], y as [s'|s'| |s' m' e']; cbn [SFsame];
    intros H; try done; try discriminate H; try (injection H as ->); subst;
    try (by right); left; unfold SFeqb; try done.
  - by rewrite SFcompare_refl.
  - by rewrite SFcompare_refl.
Qed.
End Signs.

Section Float64.
Lemma is_nan_spec x : is_nan x = true ↔ Prim2SF x = S754_nan.
Proof.
  unfold is_nan. rewrite FloatAxioms.eqb_spec. unfold SFeqb.
  destruct (Prim2SF x) as [s|s| |s m e] eqn:E.
  - cbn. split; done.
  - cbn. destruct s; split; done.
  - cbn. split; done.
  - rewrite SFcompare_refl by done. split; done.
Qed.

Lemma same_value_intro x y :
  SFsame (Prim2SF x) (Prim2SF y) → same_value x y = true.
Proof.
  intros [H|[Hx Hy]]%SFsame_eqb; unfold same_value.
  - by rewrite FloatAxioms.eqb_spec, H.
  - apply is_nan_spec in Hx, Hy. rewrite Hx, Hy. apply orb_true_r.
Qed.

Lemma sub_opp x y : SFsame (Prim2SF (y - x)) (SFopp (Prim2SF (x - y))).
Proof. rewrite !sub_spec. apply SFsub_opp. Qed.

Lemma square_sub_swap x y : ((y - x) * (y - x) = (x - y) * (x - y))%float.
Proof.
  apply Prim2SF_inj. rewrite !mul_spec. apply SFmul_square_opp, sub_opp.
Qed.

Lemma norm_sub_swap u v : Vec.norm (Vec.sub v u) = Vec.norm (Vec.sub u v).
Proof.
  unfold Vec.norm, Vec.dot, Vec.sub. cbn [vx vy].
  by rewrite (square_sub_swap (vx u)), (square_sub_swap (vy u)).
Qed.

(** [k * ((y - x) / d)] against [- (k * ((x - y) / d))]. *)
Lemma pull_swap k d x y :
  same_value (k * ((y - x) / d)) (- (k * ((x - y) / d))) = true.
Proof.
  apply same_value_intro.
  rewrite opp_spec, !mul_spec, !div_spec.
  apply SFmul_opp_r, SFdiv_opp_l, sub_opp.
Qed.
End Float64.

(** ** What sign a product and a quotient carry *)

Section SignRules.

Lemma binary_round_aux_signed s m e l :
  signed s (binary_round_aux prec emax s m e l).
Proof.
  unfold binary_round_aux.
  destruct (shr_fexp prec emax m e l) as [mrs' e'].
  destruct (shr_fexp prec emax _ e' loc_Exact) as [mrs'' e''].
  destruct (shr_m mrs''); [by right| |by left].
  destruct (Z.leb e'' _); by right.
Qed.






End SignRules.

(** ** The pairwise force *)

Section ForceClaims.
Import PhysicsEngine.





End ForceClaims.

(** ** Adding a positive number in binary64 *)

Section AddPositive.
Local Open Scope Z_scope.


Lemma digits2_pos_size p : digits2_pos p = Pos.size p.
Proof. induction p as [p IH|p IH|]; cbn; by rewrite ?IH. Qed.

Lemma digits_bounds p :
  2 ^ (Z.pos (digits2_pos p) - 1) ≤ Z.pos p < 2 ^ Z.pos (digits2_pos p).
Proof.
  rewrite digits2_pos_size.
  pose proof (Pos.size_gt p) as Hgt. pose proof (Pos.size_le p) as Hle.
  apply Pos2Z.pos_lt_pos in Hgt. apply Pos2Z.pos_le_pos in Hle.
  rewrite Pos2Z.inj_pow in Hgt, Hle.
  split; [|done].
  replace (Z.pos (Pos.size p)) with (Z.succ (Z.pos (Pos.size p) - 1)) in Hle by lia.
  rewrite Z.pow_succ_r in Hle by lia. lia.
Qed.

Lemma digits_mono p q :
  Z.pos p ≤ Z.pos q → Z.pos (digits2_pos p) ≤ Z.pos (digits2_pos q).
Proof.
  intros Hpq. destruct (Z.le_gt_cases (Z.pos (digits2_pos p)) (Z.pos (digits2_pos q)))
    as [|Hgt]; [done|].
  pose proof (digits_bounds p) as [Hp _]. pose proof (digits_bounds q) as [_ Hq].
  assert (2 ^ Z.pos (digits2_pos q) ≤ 2 ^ (Z.pos (digits2_pos p) - 1))
    by (apply Z.pow_le_mono_r; lia).
  lia.
Qed.



(** Shifting right. *)













End AddPositive.

(** ** The clock *)

Section ClockClaims.
Import PhysicsEngine.


Lemma steps_succ k dt w : steps (S k) dt w = perform (Step dt) (steps k dt w).
Proof. done. Qed.







End ClockClaims.

(** ** The energy of the Sun and the Earth over one year *)

Section Energy.
Import EnergyTester.



Lemma range_from_snoc a n :
  range_from a (S n) = range_from a n ++ [(a + Z.of_nat n)%Z].
Proof.
  revert a. induction n as [|n IH]; intros a.
  - cbn. by rewrite Z.add_0_r.
  - change (range_from a (S (S n))) with (a :: range_from (a + 1) (S n)).
    rewrite IH. cbn [range_from app]. do 3 f_equal. lia.
Qed.

Lemma simulate_succ n dt ri self w :
  simulate (S n) dt ri self w
  = turn dt ri (simulate n dt ri self w) (1 + Z.of_nat n).
Proof. unfold simulate. by rewrite range_from_snoc, foldl_app. Qed.

(** The loop of [run_test] steps the engine [num_steps] times. *)
Lemma simulate_world n dt ri self w : (simulate n dt ri self w).2 = steps n dt w.
Proof.
  induction n as [|n IH]; [done|].
  rewrite simulate_succ. cbn [turn snd]. by rewrite IH.
Qed.



End Energy.

(** ** The statements at concrete inputs *)

Section Witnesses.
Import CelestialBody PhysicsEngine.

(** A body that has moved 501 times holds the last 500 of its positions. *)
Lemma trajectory_capped_witness :
  let cs := replicate 501 (Move 1000) in
  length (trajectory earth) ≤ 500
  ∧ 500 < moves cs
  ∧ length (trajectory (body_run cs earth)) = 500
  ∧ trajectory (body_run cs earth) = last_n 500 (visited cs earth).
Proof.
  intros cs.
  assert (H1 : length (trajectory earth) ≤ 500) by (cbn; lia).
  assert (H2 : 500 < moves cs) by (vm_compute; lia).
  split; [exact H1|]. split; [exact H2|].
  exact (proj2 (proj2 (proj2 trajectory_capped)) cs earth H1 H2).
Defined.

(** One step of the test scenario: the Earth, which is in the collection
    once, takes one semi-implicit Euler step. *)
Lemma update_two_phase_witness :
  let e := engine sun_earth in
  let σ := objects sun_earth in
  let σ' := (update 1000 e σ).2 in
  NoDup (bodies e) ∧ earth_ref ∈ bodies e
  ∧ position (deref σ' earth_ref)
    = Vec.add (position (deref σ earth_ref))
              (Vec.mul_r (velocity (deref σ' earth_ref)) 1000).
Proof.
  intros e σ σ'.
  assert (Hnd : NoDup (bodies e)) by (apply (bool_decide_unpack _); by vm_compute).
  assert (Hin : earth_ref ∈ bodies e) by (apply (bool_decide_unpack _); by vm_compute).
  split; [exact Hnd|]. split; [exact Hin|].
  destruct (update_two_phase 1000%float e σ) as (_ & _ & _ & _ & _ & H).
  destruct (H Hnd earth_ref Hin) as (_ & _ & Hpos). exact Hpos.
Defined.

(** Removing the Sun from the test scenario leaves the Earth; removing a
    body that was never added leaves the engine as it was. *)
Lemma remove_body_witness :
  sun_ref ∈ bodies (engine sun_earth)
  ∧ (3%positive ∉ bodies (engine sun_earth))
  ∧ remove_body 3%positive (engine sun_earth) = engine sun_earth
  ∧ ∃ before after,
      bodies (engine sun_earth) = before ++ sun_ref :: after
      ∧ (sun_ref ∉ before)
      ∧ bodies (remove_body sun_ref (engine sun_earth)) = before ++ after.
Proof.
  assert (Hin : sun_ref ∈ bodies (engine sun_earth))
    by (apply (bool_decide_unpack _); by vm_compute).
  assert (Hnin : 3%positive ∉ bodies (engine sun_earth))
    by (apply (bool_decide_unpack _); by vm_compute).
  split; [exact Hin|]. split; [exact Hnin|]. split.
  - exact (proj1 (proj2 (remove_body_first_or_noop 3%positive (engine sun_earth))) Hnin).
  - exact (proj1 (remove_body_first_or_noop sun_ref (engine sun_earth)) Hin).
Defined.

(** Advancing the Earth by one step leaves the Sun as it was. *)
Lemma update_semi_implicit_euler_witness :
  sun_ref ≠ earth_ref
  ∧ deref (call (CelestialBody.update 1000) earth_ref (objects sun_earth)) sun_ref
    = deref (objects sun_earth) sun_ref.
Proof.
  assert (Hne : sun_ref ≠ earth_ref) by done.
  split; [exact Hne|].
  destruct (update_semi_implicit_euler 1000%float earth_ref (objects sun_earth))
    as (_ & _ & _ & _ & _ & _ & _ & _ & H).
  exact (H sun_ref Hne).
Defined.

End Witnesses.

(** * Further properties of the code *)

(** ** The collection of bodies *)

Section Collection.
Import PhysicsEngine.
Implicit Types (e : PhysicsEngine.t) (body other : ref).

Lemma list_remove_absent body (l : list ref) : body ∉ l → list_remove body l = l.
Proof.
  induction l as [|x l IH]; intros Hnin; [done|].
  apply not_elem_of_cons in Hnin as [Hne Hnin].
  cbn [list_remove]. rewrite decide_False by done. by rewrite IH.
Qed.

Lemma list_remove_middle body (before rest : list ref) :
  body ∉ before → list_remove body (before ++ body :: rest) = before ++ rest.
Proof.
  induction before as [|x before IH]; intros Hnin; cbn [app list_remove].
  - by rewrite decide_True.
  - apply not_elem_of_cons in Hnin as [Hne Hnin].
    rewrite decide_False by done. by rewrite IH.
Qed.

Lemma count_occ_list_remove body other (l : list ref) :
  count_occ Pos.eq_dec (list_remove body l) other
  = count_occ Pos.eq_dec l other
    - (if decide (other = body ∧ body ∈ l) then 1 else 0).
Proof.
  induction l as [|x l IH]; cbn [list_remove count_occ].
  - case_decide as H; [destruct H as [_ H]; by apply elem_of_nil in H | done].
  - destruct (decide (x = body)) as [->|Hne].
    + destruct (Pos.eq_dec body other) as [->|Hne'].
      * rewrite decide_True by (split; [done | apply elem_of_cons; by left]). lia.
      * rewrite decide_False by (intros [? _]; congruence). lia.
    + cbn [count_occ]. rewrite IH.
      destruct (Pos.eq_dec x other) as [->|Hne'].
      * rewrite !decide_False by (intros [? _]; congruence). lia.
      * destruct (decide (other = body ∧ body ∈ l)) as [[-> Hin]|Hn].
        -- rewrite decide_True by (split; [done | apply elem_of_cons; by right]).
           done.
        -- rewrite decide_False; [done|].
           intros [-> [?|?]%elem_of_cons]; [congruence | by apply Hn].
Qed.

(** Without repetitions, what [remove_body] leaves is a part of the
    collection, without repetitions and without [body]. *)
Lemma remove_body_NoDup body e :
  NoDup (bodies e) →
  NoDup (bodies (remove_body body e))
  ∧ (body ∉ bodies (remove_body body e))
  ∧ ∀ r, r ∈ bodies (remove_body body e) → r ∈ bodies e.
Proof.
  intros Hnd. unfold remove_body. case_decide as Hin; [|done]. cbn [bodies].
  destruct (list_remove_first body (bodies e) Hin)
    as (before & after & Heq & Hnin & ->).
  rewrite Heq in Hnd |- *. apply NoDup_app in Hnd as (Hb & Hsep & Hnd).
  apply NoDup_cons in Hnd as [Hnin' Ha].
  split; [|split].
  - apply NoDup_app. split; [done|]. split; [|done].
    intros x Hx Hx'. apply (Hsep x Hx). apply elem_of_cons. by right.
  - by apply not_elem_of_app.
  - intros r. rewrite !elem_of_app, elem_of_cons. tauto.
Qed.

(** X1.  [add_body] appends the body and leaves the clock alone, and
    [remove_body] undoes it: adding a body that is not in the collection
    and removing it again gives back the engine as it was.  If the body was
    in the collection already, the pair of calls is not the identity:
    [remove_body] takes out the older entry, so the body moves to the end
    of the collection. *)
Theorem add_then_remove body e :
  bodies (add_body body e) = bodies e ++ [body]
  ∧ time (add_body body e) = time e
  ∧ (body ∉ bodies e → remove_body body (add_body body e) = e)
  ∧ (body ∈ bodies e →
       ∃ before after,
         bodies e = before ++ body :: after ∧ (body ∉ before)
         ∧ bodies (remove_body body (add_body body e))
           = before ++ after ++ [body]).
Proof.
  assert (Hin' : body ∈ bodies (add_body body e)).
  { apply elem_of_app. right. by apply list_elem_of_singleton. }
  split; [done|]. split; [done|]. split.
  - intros Hnin. unfold remove_body. rewrite decide_True by done.
    cbn [add_body bodies time].
    rewrite (list_remove_middle body (bodies e) []) by done.
    rewrite app_nil_r. by destruct e.
  - intros Hin. apply list_elem_of_split_l in Hin as (before & after & Heq & Hnin).
    exists before, after. split; [done|]. split; [done|].
    unfold remove_body. rewrite decide_True by done.
    cbn [add_body bodies time]. rewrite Heq, <- app_assoc. cbn [app].
    by apply list_remove_middle.
Qed.

(** X2.  [remove_body] takes out one entry at most: when the body is in
    the collection the collection gets shorter by one, the number of
    entries of that body drops by one and no other body's count changes.
    So a body that was added twice is still in the collection after one
    [remove_body]; only in a collection without repetitions is the body
    gone, and such a collection stays without repetitions. *)
Theorem remove_body_takes_one body e :
  (body ∈ bodies e →
     S (length (bodies (remove_body body e))) = length (bodies e))
  ∧ (∀ other,
       count_occ Pos.eq_dec (bodies (remove_body body e)) other
       = count_occ Pos.eq_dec (bodies e) other
         - (if decide (other = body ∧ body ∈ bodies e) then 1 else 0))
  ∧ (1 < count_occ Pos.eq_dec (bodies e) body →
       body ∈ bodies (remove_body body e))
  ∧ (NoDup (bodies e) → body ∉ bodies (remove_body body e))
  ∧ (NoDup (bodies e) → NoDup (bodies (remove_body body e))).
Proof.
  assert (Hcount : ∀ other,
       count_occ Pos.eq_dec (bodies (remove_body body e)) other
       = count_occ Pos.eq_dec (bodies e) other
         - (if decide (other = body ∧ body ∈ bodies e) then 1 else 0)).
  { intros other. unfold remove_body. case_decide as Hin; cbn [bodies].
    - apply count_occ_list_remove.
    - rewrite decide_False by (intros [_ ?]; done). lia. }
  split; [|split; [exact Hcount|split; [|split]]].
  - intros Hin. unfold remove_body. rewrite decide_True by done. cbn [bodies].
    destruct (list_remove_first body (bodies e) Hin) as (before & after & -> & _ & ->).
    rewrite !length_app. cbn [length]. lia.
  - intros Htwice. apply list_elem_of_In, (count_occ_In Pos.eq_dec).
    rewrite Hcount. clear Hcount. unfold gt. destruct (decide _); lia.
  - intros Hnd. by apply remove_body_NoDup.
  - intros Hnd. by apply remove_body_NoDup.
Qed.
End Collection.

(** ** What a step of the engine overwrites and what it keeps *)

Section StepFacts.
Import PhysicsEngine.
Implicit Types (σ : heap) (e : PhysicsEngine.t) (w : world).

Lemma same_places_sym σ σ' : same_places σ σ' → same_places σ' σ.
Proof. intros H r. by destruct (H r). Qed.

(** X3.  The acceleration of a body of the collection is recomputed from
    the positions at every [PhysicsEngine.update]: a force applied to it by
    hand ([body.apply_force(force)]) before the step is overwritten and
    leaves no trace, on that body or on any other.  A body outside the
    collection keeps the acceleration it was given. *)
Theorem acceleration_is_overwritten (dt : float) e σ body force :
  let σ_forced := call (CelestialBody.apply_force force) body σ in
  (body ∈ bodies e →
     ∀ other, deref (update dt e σ_forced).2 other = deref (update dt e σ).2 other)
  ∧ (body ∉ bodies e →
       deref (update dt e σ_forced).2 body
       = CelestialBody.apply_force force (deref σ body)).
Proof.
  intros σ_forced.
  assert (Hsame : same_places σ_forced σ).
  { apply same_places_sym, same_places_apply_force, same_places_refl. }
  split.
  - intros Hin other. cbn [update snd].
    rewrite !deref_move_bodies. f_equal.
    rewrite !deref_compute_forces.
    rewrite (total_force_reads_places σ_forced σ) by done.
    case_decide as Hother; [|subst σ_forced; rewrite deref_call; case_decide; congruence].
    subst σ_forced. rewrite deref_call. case_decide; [subst|done].
    apply apply_force_twice.
  - intros Hnin. cbn [update snd].
    rewrite deref_move_bodies, count_occ_absent by done. cbn [Nat.iter].
    rewrite deref_compute_forces, decide_False by done.
    subst σ_forced. apply deref_call_eq.
Qed.

(** X4.  No call of the core writes a name or a colour: after any sequence
    of requests ([add_body], [remove_body], [clear_all],
    [PhysicsEngine.update], [apply_force], [CelestialBody.update]) every
    object has the name and the colour it had. *)
Theorem name_and_color_never_written (cs : list request) w body :
  CelestialBody.name (deref (objects (perform_all cs w)) body)
  = CelestialBody.name (deref (objects w) body)
  ∧ CelestialBody.color (deref (objects (perform_all cs w)) body)
    = CelestialBody.color (deref (objects w) body).
Proof.
  split.
  - by apply (P_perform_all (λ b, CelestialBody.name b
                                  = CelestialBody.name (deref (objects w) body))).
  - by apply (P_perform_all (λ b, CelestialBody.color b
                                  = CelestialBody.color (deref (objects w) body))).
Qed.

Lemma last_trajectory_update dt (b : CelestialBody.t) :
  last (CelestialBody.trajectory (CelestialBody.update dt b))
  = Some (CelestialBody.position (CelestialBody.update dt b)).
Proof.
  cbn [CelestialBody.update CelestialBody.trajectory CelestialBody.position].
  case_decide as Hlong; [|apply last_snoc].
  destruct (CelestialBody.trajectory b) as [|p l].
  - cbn in Hlong. unfold CelestialBody.cap in Hlong. lia.
  - cbn [app tail]. apply last_snoc.
Qed.

(** X5.  The trajectory of a body ends where the body is.  A constructed
    body has an empty trajectory; after [CelestialBody.update] the last
    point of the trajectory is the new position.  Every other call leaves
    position and trajectory alone, so after any sequence of requests the
    trajectory of an object is empty or ends at its current position, if
    it was so before. *)
Theorem trajectory_ends_at_position :
  (∀ n m p v c, ends_at_position (CelestialBody.init n m p v c))
  ∧ (∀ dt b, last (CelestialBody.trajectory (CelestialBody.update dt b))
             = Some (CelestialBody.position (CelestialBody.update dt b)))
  ∧ (∀ cs w body,
       ends_at_position (deref (objects w) body) →
       ends_at_position (deref (objects (perform_all cs w)) body)).
Proof.
  split; [by left|]. split; [apply last_trajectory_update|].
  intros cs w body. apply P_perform_all.
  - intros force b Hb. exact Hb.
  - intros dt b _. right. apply last_trajectory_update.
Qed.

Lemma steps_add a b dt w : steps (a + b) dt w = steps b dt (steps a dt w).
Proof. unfold steps. rewrite Nat.add_comm. apply Nat.iter_add. Qed.
End StepFacts.

(** ** A body on its own *)

Section ZeroForce.
Import PhysicsEngine.

Lemma is_finite_spec (x : float) :
  is_finite x = true →
  (∃ s, Prim2SF x = S754_zero s) ∨ (∃ s m e, Prim2SF x = S754_finite s m e).
Proof.
  unfold is_finite, is_infinity, is_nan.
  rewrite !FloatAxioms.eqb_spec, abs_spec.
  change (Prim2SF infinity) with (S754_infinity false).
  destruct (Prim2SF x) as [s|[]| |s m e]; eauto; intros H; vm_compute in H;
    discriminate H.
Qed.

Lemma zero_div_positive (m : float) : (0 <? m)%float = true → (0 / m)%float = 0%float.
Proof.
  rewrite ltb_spec. intros Hm. apply Prim2SF_inj. rewrite div_spec.
  change (Prim2SF 0) with (S754_zero false).
  by destruct (Prim2SF m) as [s|[]| |[] mm em].
Qed.

Lemma zero_times_finite (dt : float) :
  is_finite dt = true → ∃ s, Prim2SF (0 * dt) = S754_zero s.
Proof.
  intros Hdt. rewrite mul_spec. change (Prim2SF 0) with (S754_zero false).
  destruct (is_finite_spec dt Hdt) as [[s ->]|(s & m & e & ->)]; by eexists.
Qed.

Lemma add_zero (v z : float) :
  (∃ s, Prim2SF z = S754_zero s) → same_value (v + z) v = true.
Proof.
  intros [s Hz]. apply same_value_intro. rewrite add_spec, Hz.
  unfold SF64add. destruct (Prim2SF v) as [s'|s'| |s' m e]; cbn; try done.
  by destruct s', s.
Qed.

Lemma total_force_alone (σ : heap) body : total_force σ [body] body = Vec.zero.
Proof.
  unfold total_force. cbn [foldl]. by rewrite decide_False by (intros H; by apply H).
Qed.

(** X6.  A body that is alone in the collection feels no force: there is
    no self-interaction.  For a body of positive mass and a finite [dt],
    [PhysicsEngine.update] sets its acceleration to [[0.0, 0.0]], leaves its
    velocity at the value it had, and moves it by [velocity * dt]. *)
Theorem lone_body_moves_uniformly (dt : float) (e : PhysicsEngine.t) (σ : heap) body :
  bodies e = [body] →
  (0 <? CelestialBody.mass (deref σ body))%float = true →
  is_finite dt = true →
  let b := deref σ body in
  let b' := deref (update dt e σ).2 body in
  CelestialBody.acceleration b' = Vec 0 0
  ∧ same_vec (CelestialBody.velocity b') (CelestialBody.velocity b) = true
  ∧ CelestialBody.position b'
    = Vec.add (CelestialBody.position b) (Vec.mul_r (CelestialBody.velocity b') dt).
Proof.
  intros He Hm Hdt b b'. subst b'. cbn [update snd]. rewrite He.
  rewrite deref_move_bodies. cbn [count_occ]. destruct (Pos.eq_dec body body); [|done].
  cbn [Nat.iter]. rewrite deref_compute_forces.
  rewrite decide_True by (by apply list_elem_of_singleton).
  rewrite total_force_alone. fold b.
  assert (Hacc : CelestialBody.acceleration
                   (CelestialBody.apply_force Vec.zero b) = Vec 0 0).
  { cbn. unfold Vec.div, Vec.zero. cbn [vx vy]. by rewrite zero_div_positive. }
  split; [exact Hacc|]. split; [|done].
  set (b1 := CelestialBody.apply_force Vec.zero b) in *.
  change (CelestialBody.velocity (Nat.iter 1 (CelestialBody.update dt) b1))
    with (Vec.add (CelestialBody.velocity b)
                  (Vec.mul_r (CelestialBody.acceleration b1) dt)).
  rewrite Hacc.
  unfold same_vec, Vec.add, Vec.mul_r. cbn [vx vy].
  rewrite !add_zero by by apply zero_times_finite. done.
Qed.

(** The Earth of the test scenario, alone in an engine, drifts along its
    velocity. *)
Lemma lone_body_moves_uniformly_witness :
  let e := PhysicsEngine.mk [earth_ref] 0 in
  let σ := objects sun_earth in
  let b' := deref (update 1000 e σ).2 earth_ref in
  CelestialBody.acceleration b' = Vec 0 0
  ∧ same_vec (CelestialBody.velocity b') (CelestialBody.velocity earth) = true
  ∧ CelestialBody.position b'
    = Vec.add (CelestialBody.position earth)
              (Vec.mul_r (CelestialBody.velocity b') 1000).
Proof.
  intros e σ b'.
  apply (lone_body_moves_uniformly 1000 e σ earth_ref);
    [reflexivity | vm_compute; reflexivity | vm_compute; reflexivity].
Defined.
End ZeroForce.

(** ** Symmetry: a mirrored pair *)


Section Mirror.
Variables prec emax : Z.

Lemma SFeqb_same x y : SFeqb x y = true → SFsame x y.
Proof.
  unfold SFeqb.
  destruct x as [s|s| |s m e], y as [s'|s'| |s' m' e']; cbn [SFcompare SFsame];
    try done; try (by destruct s, s').
  destruct s, s'; try done.
  - destruct (Z.compare e e') eqn:He; try done.
    destruct (Pos.compare_cont Eq m m') eqn:Hm; try done.
    apply Z.compare_eq in He. apply (Pos.compare_eq m m') in Hm. by subst.
  - destruct (Z.compare e e') eqn:He; try done.
    destruct (Pos.compare_cont Eq m m') eqn:Hm; try done.
    apply Z.compare_eq in He. apply (Pos.compare_eq m m') in Hm. by subst.
Qed.

Lemma SFadd_opp x x' y y' :
  SFsame x' (SFopp x) → SFsame y' (SFopp y) →
  SFsame (SFadd prec emax x' y') (SFopp (SFadd prec emax x y)).
Proof.
  destruct x as [sx|sx| |sx mx ex], x' as [sx'|sx'| |sx' mx' ex'];
    cbn [SFsame SFopp]; intros Hx; try done; try discriminate Hx;
    try (injection Hx as ->); subst;
    destruct y as [sy|sy| |sy my ey], y' as [sy'|sy'| |sy' my' ey'];
    cbn [SFsame SFopp]; intros Hy; try done; try discriminate Hy;
    try (injection Hy as ->); subst; cbn [SFadd SFopp SFsame]; try done.
  - by destruct sx, sy, sx', sy'.
  - by destruct sx, sy.
  - cbv zeta.
    set (a := Z.pos (fst (shl_align mx ex _))).
    set (b := Z.pos (fst (shl_align my ey _))).
    replace (cond_Zopp (negb sx) a + cond_Zopp (negb sy) b)%Z
      with (- (cond_Zopp sx a + cond_Zopp sy b))%Z
      by (destruct sx, sy; cbn [negb cond_Zopp]; lia).
    apply binary_normalize_opp.
Qed.

Lemma SFmul_opp_l x x' k :
  SFsame x' (SFopp x) →
  SFsame (SFmul prec emax x' k) (SFopp (SFmul prec emax x k)).
Proof.
  destruct x as [sx|sx| |sx mx ex], k as [sk|sk| |sk mk ek],
           x' as [sx'|sx'| |sx' mx' ex']; cbn [SFsame SFopp]; intros H;
    try done; try discriminate H; try (injection H as ->); subst;
    cbn [SFmul SFopp]; rewrite <- ?negb_xorb_l; try done.
  rewrite binary_round_aux_opp. apply SFsame_refl.
Qed.
End Mirror.

Section MirrorFloat.

Lemma same_value_elim x y :
  same_value x y = true → SFsame (Prim2SF x) (Prim2SF y).
Proof.
  unfold same_value. intros [H|[Hx Hy]%andb_true_iff]%orb_true_iff.
  - rewrite FloatAxioms.eqb_spec in H. by apply SFeqb_same.
  - apply is_nan_spec in Hx, Hy. by rewrite Hx, Hy.
Qed.

Lemma opposite_spec x y :
  opposite x y = true ↔ SFsame (Prim2SF x) (SFopp (Prim2SF y)).
Proof.
  unfold opposite. rewrite <- opp_spec. split; [apply same_value_elim|apply same_value_intro].
Qed.

Lemma opposite_add x x' y y' :
  opposite x x' = true → opposite y y' = true → opposite (x + y) (x' + y') = true.
Proof.
  rewrite !opposite_spec, !add_spec. apply SFadd_opp.
Qed.

Lemma opposite_mul_l x x' k : opposite x x' = true → opposite (x * k) (x' * k) = true.
Proof. rewrite !opposite_spec, !mul_spec. apply SFmul_opp_l. Qed.

Lemma opposite_div_l x x' k : opposite x x' = true → opposite (x / k) (x' / k) = true.
Proof. rewrite !opposite_spec, !div_spec. apply SFdiv_opp_l. Qed.
End MirrorFloat.

Section MirroredPair.
Import PhysicsEngine.
Implicit Types (σ : heap) (w : world) (a b : ref).

Lemma opposite_zero : opposite 0 0 = true.
Proof. vm_compute. reflexivity. Qed.

(** Swapping the two bodies turns the force around, when the product of
    [G] and the masses does not depend on their order. *)
Lemma force_swap (b1 b2 : CelestialBody.t) :
  CelestialBody.mass b1 = CelestialBody.mass b2 →
  let f := calculate_gravitational_force b1 b2 in
  let f' := calculate_gravitational_force b2 b1 in
  opposite (vx f) (vx f') = true ∧ opposite (vy f) (vy f') = true.
Proof.
  intros Hm. cbv zeta. unfold calculate_gravitational_force.
  rewrite (norm_sub_swap (CelestialBody.position b2) (CelestialBody.position b1)).
  rewrite Hm. set (d := Vec.norm _).
  destruct (d <? softening)%float; [split; vm_compute; reflexivity|].
  unfold opposite, Vec.mul_l, Vec.div, Vec.sub. cbn [vx vy].
  split; apply pull_swap.
Qed.

Lemma total_force_pair_fst σ a b :
  a ≠ b →
  total_force σ [a; b] a
  = Vec.add Vec.zero (calculate_gravitational_force (deref σ a) (deref σ b)).
Proof.
  intros Hne. unfold total_force. cbn [foldl].
  rewrite (decide_False (P := a ≠ a)) by (intros H; by apply H).
  by rewrite decide_True.
Qed.

Lemma total_force_pair_snd σ a b :
  a ≠ b →
  total_force σ [a; b] b
  = Vec.add Vec.zero (calculate_gravitational_force (deref σ b) (deref σ a)).
Proof.
  intros Hne. unfold total_force. cbn [foldl].
  rewrite (decide_False (P := b ≠ b)) by (intros H; by apply H).
  by rewrite decide_True by done.
Qed.

Lemma deref_update_pair dt e σ a b :
  bodies e = [a; b] → a ≠ b →
  deref (update dt e σ).2 a
  = CelestialBody.update dt
      (CelestialBody.apply_force
         (Vec.add Vec.zero (calculate_gravitational_force (deref σ a) (deref σ b)))
         (deref σ a))
  ∧ deref (update dt e σ).2 b
    = CelestialBody.update dt
        (CelestialBody.apply_force
           (Vec.add Vec.zero (calculate_gravitational_force (deref σ b) (deref σ a)))
           (deref σ b)).
Proof.
  intros He Hne. cbn [update snd]. rewrite He, !deref_move_bodies, !deref_compute_forces.
  assert (Hnd : NoDup [a; b]).
  { apply NoDup_cons. split; [by intros ->%list_elem_of_singleton|apply NoDup_singleton]. }
  assert (Ha : a ∈ [a; b]) by (apply elem_of_cons; by left).
  assert (Hb : b ∈ [a; b]).
  { apply elem_of_cons. right. by apply list_elem_of_singleton. }
  rewrite !count_occ_NoDup, !decide_True by done. cbn [Nat.iter].
  by rewrite total_force_pair_fst, total_force_pair_snd.
Qed.

Lemma mirrored_update dt (b1 b2 : CelestialBody.t) (f1 f2 : vec) :
  CelestialBody.mass b1 = CelestialBody.mass b2 →
  mirrored b1 b2 = true →
  opposite (vx f1) (vx f2) = true → opposite (vy f1) (vy f2) = true →
  mirrored (CelestialBody.update dt (CelestialBody.apply_force (Vec.add Vec.zero f1) b1))
           (CelestialBody.update dt (CelestialBody.apply_force (Vec.add Vec.zero f2) b2))
  = true.
Proof.
  intros Hm Hmir Hfx Hfy.
  apply andb_true_iff in Hmir as [Hp Hv].
  apply andb_true_iff in Hp as [Hpx Hpy]. apply andb_true_iff in Hv as [Hvx Hvy].
  fold (opposite (vx (CelestialBody.position b1)) (vx (CelestialBody.position b2))) in Hpx.
  fold (opposite (vy (CelestialBody.position b1)) (vy (CelestialBody.position b2))) in Hpy.
  fold (opposite (vx (CelestialBody.velocity b1)) (vx (CelestialBody.velocity b2))) in Hvx.
  fold (opposite (vy (CelestialBody.velocity b1)) (vy (CelestialBody.velocity b2))) in Hvy.
  unfold mirrored, same_vec.
  cbn [CelestialBody.update CelestialBody.apply_force CelestialBody.position
       CelestialBody.velocity CelestialBody.acceleration CelestialBody.mass
       Vec.add Vec.mul_r Vec.div Vec.neg Vec.zero vx vy].
  rewrite Hm.
  assert (Hnx : opposite
            (vx (CelestialBody.velocity b1) + (0 + vx f1) / CelestialBody.mass b2 * dt)
            (vx (CelestialBody.velocity b2) + (0 + vx f2) / CelestialBody.mass b2 * dt)
          = true).
  { apply opposite_add; [done|]. apply opposite_mul_l, opposite_div_l.
    by apply opposite_add; [apply opposite_zero|]. }
  assert (Hny : opposite
            (vy (CelestialBody.velocity b1) + (0 + vy f1) / CelestialBody.mass b2 * dt)
            (vy (CelestialBody.velocity b2) + (0 + vy f2) / CelestialBody.mass b2 * dt)
          = true).
  { apply opposite_add; [done|]. apply opposite_mul_l, opposite_div_l.
    by apply opposite_add; [apply opposite_zero|]. }
  repeat (apply andb_true_iff; split); try done.
  - apply opposite_add; [done|]. by apply opposite_mul_l.
  - apply opposite_add; [done|]. by apply opposite_mul_l.
Qed.

(** X7.  Two bodies of equal mass that start as mirror images of each
    other in the origin (opposite positions, opposite velocities, as the
    two stars of [load_binary_stars] do) stay mirror images for ever: after
    any number of [PhysicsEngine.update(dt)], whatever [dt], position and
    velocity of the one are exactly the opposite of those of the other, with
    no rounding drift ([+0.0] and [-0.0] count as equal; a NaN on one side
    faces a NaN on the other). *)
Theorem mirrored_pair_stays_mirrored (k : nat) (dt : float) w a b :
  bodies (engine w) = [a; b] → a ≠ b →
  CelestialBody.mass (deref (objects w) a) = CelestialBody.mass (deref (objects w) b) →
  mirrored (deref (objects w) a) (deref (objects w) b) = true →
  mirrored (deref (objects (steps k dt w)) a) (deref (objects (steps k dt w)) b) = true.
Proof.
  intros He Hne Hm Hmir.
  assert (Hinv : bodies (engine (steps k dt w)) = [a; b]
                 ∧ CelestialBody.mass (deref (objects (steps k dt w)) a)
                   = CelestialBody.mass (deref (objects (steps k dt w)) b)
                 ∧ mirrored (deref (objects (steps k dt w)) a)
                            (deref (objects (steps k dt w)) b) = true).
  { induction k as [|k (IHe & IHm & IHmir)]; [done|].
    rewrite steps_succ. set (w' := steps k dt w) in *.
    destruct (deref_update_pair dt (engine w') (objects w') a b IHe Hne) as [Ha Hb].
    change (objects (perform (Step dt) w'))
      with (update dt (engine w') (objects w')).2.
    split; [exact IHe|]. rewrite Ha, Hb. split; [exact IHm|].
    destruct (force_swap (deref (objects w') a) (deref (objects w') b) IHm) as [Hfx Hfy].
    by apply mirrored_update. }
  apply Hinv.
Qed.

(** The two stars of the binary preset, two steps on. *)
Lemma mirrored_pair_stays_mirrored_witness :
  let w := SimulationController.physics_engine
             (SimulationController.load_binary_stars SimulationController.init) in
  bodies (engine w) = [3%positive; 4%positive]
  ∧ mirrored (deref (objects (steps 2 1000 w)) 3%positive)
             (deref (objects (steps 2 1000 w)) 4%positive) = true.
Proof.
  intros w.
  assert (He : bodies (engine w) = [3%positive; 4%positive])
    by (vm_compute; reflexivity).
  split; [exact He|].
  apply (mirrored_pair_stays_mirrored 2 1000 w 3 4 He);
    [discriminate | vm_compute; reflexivity | vm_compute; reflexivity].
Defined.
End MirroredPair.

(** ** Creating bodies and the shape of the collection *)

Section Objects.
Implicit Types (σ : heap) (w : world) (b : CelestialBody.t) (r body : ref).

Lemma dom_call m body σ : dom (call m body σ) = {[body]} ∪ dom σ.
Proof. unfold call. apply dom_insert_L. Qed.

Lemma dom_foldl_call (g : heap → ref → CelestialBody.t → CelestialBody.t)
    (l : list ref) σ r :
  r ∈ dom σ → r ∈ dom (foldl (λ σ body, call (g σ body) body σ) σ l).
Proof.
  revert σ. induction l as [|x l IH]; intros σ Hr; [done|].
  cbn [foldl]. apply IH. rewrite dom_call. set_solver.
Qed.

(** No request deletes an object. *)
Lemma dom_perform c w r : r ∈ dom (objects w) → r ∈ dom (objects (perform c w)).
Proof.
  intros Hr. destruct c; cbn [perform objects]; try done.
  - cbn [PhysicsEngine.update]. cbn [objects].
    unfold PhysicsEngine.move_bodies, PhysicsEngine.compute_forces.
    apply (dom_foldl_call (λ _ _, CelestialBody.update dt)).
    by apply (dom_foldl_call
                (λ σ body, CelestialBody.apply_force
                             (PhysicsEngine.total_force σ
                                (PhysicsEngine.bodies (engine w)) body))).
  - rewrite dom_call. set_solver.
  - rewrite dom_call. set_solver.
Qed.

Lemma bodies_spawn b w :
  PhysicsEngine.bodies (engine (spawn b w))
  = PhysicsEngine.bodies (engine w) ++ [fresh (dom (objects w))].
Proof. done. Qed.

Lemma deref_spawn b w r :
  deref (objects (spawn b w)) r
  = if decide (r = fresh (dom (objects w))) then b else deref (objects w) r.
Proof.
  unfold spawn, new_object, deref. cbn [objects].
  case_decide as Hr.
  - subst r. by rewrite lookup_total_insert_eq.
  - by rewrite lookup_total_insert_ne.
Qed.

Lemma well_formed_spawn b w : well_formed w → well_formed (spawn b w).
Proof.
  intros [Hnd Hdom]. pose proof (is_fresh (dom (objects w))) as Hfresh.
  split.
  - rewrite bodies_spawn. apply NoDup_app. split; [done|]. split.
    + intros x Hx ->%list_elem_of_singleton. by apply Hfresh, Hdom.
    + apply NoDup_singleton.
  - intros r. rewrite bodies_spawn. unfold spawn, new_object. cbn [objects].
    rewrite dom_insert_L. intros [Hr| ->%list_elem_of_singleton]%elem_of_app.
    + apply elem_of_union. right. by apply Hdom.
    + apply elem_of_union. left. by apply elem_of_singleton.
Qed.

Lemma well_formed_spawn_all bs w : well_formed w → well_formed (spawn_all bs w).
Proof.
  revert w. induction bs as [|b bs IH]; intros w Hw; [done|].
  cbn [spawn_all foldl]. apply IH. by apply well_formed_spawn.
Qed.

Lemma cast_spawn b w : well_formed w → cast (spawn b w) = cast w ++ [b].
Proof.
  intros [_ Hdom]. unfold cast. rewrite bodies_spawn, fmap_app. cbn [fmap list_fmap].
  rewrite deref_spawn, decide_True by done. f_equal.
  apply list_fmap_ext. intros i r Hr.
  rewrite deref_spawn, decide_False; [done|].
  intros ->. apply (is_fresh (dom (objects w))), Hdom.
  by eapply list_elem_of_lookup_2.
Qed.

Lemma cast_spawn_all bs w : well_formed w → cast (spawn_all bs w) = cast w ++ bs.
Proof.
  revert w. induction bs as [|b bs IH]; intros w Hw.
  - by rewrite app_nil_r.
  - cbn [spawn_all foldl]. fold (spawn_all bs (spawn b w)).
    rewrite IH by by apply well_formed_spawn.
    rewrite cast_spawn by done. by rewrite <- app_assoc.
Qed.

Lemma clock_spawn_all bs w : clock (spawn_all bs w) = clock w.
Proof.
  revert w. induction bs as [|b bs IH]; intros w; [done|].
  cbn [spawn_all foldl]. fold (spawn_all bs (spawn b w)). by rewrite IH.
Qed.

Lemma well_formed_empty σ : well_formed (World PhysicsEngine.init σ).
Proof. split; [apply NoDup_nil_2 | intros r Hr; by apply elem_of_nil in Hr]. Qed.

Lemma well_formed_perform c w :
  well_formed w → (∀ body, c ≠ AddBody body) → well_formed (perform c w).
Proof.
  intros [Hnd Hdom] Hc.
  assert (Hkeep : ∀ c', PhysicsEngine.bodies (engine (perform c' w))
                       = PhysicsEngine.bodies (engine w) →
                       well_formed (perform c' w)).
  { intros c' Heq. split; rewrite Heq; [done|].
    intros r Hr. by apply dom_perform, Hdom. }
  destruct c as [body|body| |dt|body force|body dt]; try (by apply Hkeep).
  - by destruct (Hc body).
  - destruct (remove_body_NoDup body (engine w) Hnd) as (Hnd' & _ & Hsub).
    split; cbn [perform engine objects]; [done|].
    intros r Hr. by apply Hdom, Hsub.
  - apply well_formed_empty.
Qed.

Lemma well_formed_steps k dt w : well_formed w → well_formed (steps k dt w).
Proof.
  intros Hw. induction k as [|k IH]; [done|].
  rewrite steps_succ. by apply well_formed_perform.
Qed.

(** X8.  Constructing a body and adding it ([x = CelestialBody(...);
    engine.add_body(x)], the one way in which [main.py] and [test.py] add
    bodies) puts the new body, exactly as constructed, at the end of the
    collection; the bodies already there, every other object and the clock
    are as before, and a collection whose entries are distinct stored
    objects stays such a collection.  The same holds for several bodies
    added in a row. *)
Theorem spawn_appends_new_object (bs : list CelestialBody.t) w :
  well_formed w →
  cast (spawn_all bs w) = cast w ++ bs
  ∧ clock (spawn_all bs w) = clock w
  ∧ (∀ r, r ∈ dom (objects w) →
       deref (objects (spawn_all bs w)) r = deref (objects w) r)
  ∧ well_formed (spawn_all bs w).
Proof.
  intros Hw. split; [by apply cast_spawn_all|]. split; [apply clock_spawn_all|].
  split; [|by apply well_formed_spawn_all].
  clear Hw. revert w. induction bs as [|b bs IH]; intros w r Hr; [done|].
  cbn [spawn_all foldl]. fold (spawn_all bs (spawn b w)). rewrite IH.
  - rewrite deref_spawn, decide_False; [done|].
    intros ->. by apply (is_fresh (dom (objects w))).
  - unfold spawn, new_object. cbn [objects]. rewrite dom_insert_L. set_solver.
Qed.

(** Mars and Venus join the Sun and the Earth. *)
Lemma spawn_appends_new_object_witness :
  let w := SimulationController.physics_engine SimulationController.init in
  cast (spawn_all [mars; venus] w) = [sun; earth; mars; venus]
  ∧ well_formed (spawn_all [mars; venus] w).
Proof.
  intros w.
  assert (Hw : well_formed w).
  { do 2 apply well_formed_spawn. apply well_formed_empty. }
  destruct (spawn_appends_new_object [mars; venus] w Hw) as (Hcast & _ & _ & Hwf).
  split; [exact Hcast|exact Hwf].
Defined.

(** X9.  No request other than [add_body] can put a body twice into the
    collection or put an unknown object there: [remove_body], [clear_all],
    [PhysicsEngine.update] and the calls on single bodies keep a collection
    of distinct stored objects a collection of distinct stored objects. *)
Theorem well_formed_is_kept (cs : list request) w :
  well_formed w →
  Forall (λ c, ∀ body, c ≠ AddBody body) cs →
  well_formed (perform_all cs w).
Proof.
  revert w. induction cs as [|c cs IH]; intros w Hw Hcs; [done|].
  apply Forall_cons in Hcs as [Hc Hcs]. cbn [perform_all foldl].
  apply IH; [|done]. by apply well_formed_perform.
Qed.

(** A step, the removal of the first body and another step, from the
    initial state of the application. *)
Lemma well_formed_is_kept_witness :
  let w := SimulationController.physics_engine SimulationController.init in
  well_formed (perform_all [Step 1000; RemoveBody 1%positive; Step 1000] w).
Proof.
  intros w. apply well_formed_is_kept.
  - do 2 apply well_formed_spawn. apply well_formed_empty.
  - repeat (apply Forall_cons; split; [intros body; discriminate|]).
    apply Forall_nil_2.
Defined.
End Objects.

(** ** The controller *)

Section Controller.
Import SimulationController.
Implicit Types (c : SimulationController.t) (w : world).

Lemma well_formed_press b c :
  well_formed (physics_engine c) → well_formed (physics_engine (press b c)).
Proof.
  intros Hw.
  assert (Hclear : well_formed (perform ClearAll (physics_engine c))).
  { apply well_formed_empty. }
  destruct b; cbn [press physics_engine]; try done.
  - by do 2 apply well_formed_spawn.
  - by apply well_formed_spawn_all.
  - by apply well_formed_spawn_all.
Qed.

Lemma well_formed_act a c :
  well_formed (physics_engine c) → well_formed (physics_engine (act a c)).
Proof.
  intros Hw. destruct a as [b|]; [by apply well_formed_press|].
  cbn [act]. unfold update. destruct (is_paused c); [done|].
  by apply well_formed_steps.
Qed.

(** X10.  In every state that the application reaches from its start by
    clicks on the buttons (Start, Pause, Stop, Clear, the speeds, the solar
    and the binary preset) and by frames, the collection of the engine
    holds distinct stored objects: no body is in the collection twice. *)
Theorem controller_keeps_well_formed (acts : list action) :
  well_formed (physics_engine (run acts init)).
Proof.
  assert (Hinit : well_formed (physics_engine init)).
  { do 2 apply well_formed_spawn. apply well_formed_empty. }
  revert Hinit. generalize init.
  induction acts as [|a acts IH]; intros c Hc; [done|].
  cbn [run foldl]. apply IH. by apply well_formed_act.
Qed.

(** X11.  Stop and the presets start afresh, whatever was simulated
    before: the collection then holds newly constructed bodies only (the
    Sun and the Earth after Stop; the Sun and four planets, or the two
    stars, after a preset), with zero acceleration and empty trajectories,
    the clock is back at [0.0] and the simulation is paused; speed and time
    step are kept. *)
Theorem stop_and_presets_start_afresh c :
  let fresh_start (b : button) (bs : list CelestialBody.t) :=
    cast (physics_engine (press b c)) = bs
    ∧ clock (physics_engine (press b c)) = 0%float
    ∧ is_paused (press b c) = true
    ∧ simulation_speed (press b c) = simulation_speed c
    ∧ dt (press b c) = dt c in
  fresh_start Stop [sun; earth]
  ∧ fresh_start PresetSolar [sun; mercury; venus; earth; mars]
  ∧ fresh_start PresetBinary
      [CelestialBody.init "Зірка A" 1e30 (Vec 5e10 0)
         (Vec 0 (PrimFloat.sqrt (PhysicsEngine.G * 1e30 / 1e11)))
         (255, 100, 100)%Z;
       CelestialBody.init "Зірка B" 1e30 (Vec (-5e10) 0)
         (Vec 0 (- PrimFloat.sqrt (PhysicsEngine.G * 1e30 / 1e11)))
         (100, 100, 255)%Z].
Proof.
  intros fresh_start.
  assert (Hclear : well_formed (perform ClearAll (physics_engine c))).
  { apply well_formed_empty. }
  split; [|split]; subst fresh_start; cbv beta.
  - split; [|done].
    change (physics_engine (press Stop c))
      with (spawn_all [sun; earth] (perform ClearAll (physics_engine c))).
    by rewrite cast_spawn_all.
  - split; [|done].
    change (physics_engine (press PresetSolar c))
      with (spawn_all [sun; mercury; venus; earth; mars]
              (perform ClearAll (physics_engine c))).
    by rewrite cast_spawn_all.
  - split; [|done]. cbn [press load_binary_stars physics_engine].
    by rewrite cast_spawn_all.
Qed.

Lemma update_running c :
  is_paused c = false →
  update c = mk (steps (simulation_speed c) (dt c) (physics_engine c))
               (is_running c) false (simulation_speed c) (dt c).
Proof. intros Hc. unfold update, with_engine. by rewrite Hc. Qed.

(** X12.  The speed setting multiplies the number of engine steps per
    frame and leaves the time step alone: [n] frames at speed [k] are
    [n * k] calls of [PhysicsEngine.update(dt)] with the same [dt], so a
    run at speed [k] passes through the states of a run at speed 1, only
    faster.  While the simulation is paused, frames change nothing. *)
Theorem frames_multiply_steps (n : nat) c :
  (is_paused c = true → Nat.iter n update c = c)
  ∧ (is_paused c = false →
       Nat.iter n update c
       = mk (steps (n * simulation_speed c) (dt c) (physics_engine c))
            (is_running c) false (simulation_speed c) (dt c)).
Proof.
  split; intros Hc.
  - induction n as [|n IH]; [done|]. rewrite Nat.iter_succ, IH.
    unfold update. by rewrite Hc.
  - induction n as [|n IH]; [by destruct c; cbn in *; subst|].
    rewrite Nat.iter_succ, IH, update_running by done.
    cbn [physics_engine simulation_speed dt is_running].
    by rewrite Nat.mul_succ_l, steps_add.
Qed.
End Controller.

(** ** The signs of the energies *)


Section Sides.

Lemma sided_of_signed s x : signed s x → sided s x.
Proof. destruct x; intros [H|H]; cbn in *; try done; congruence. Qed.

Lemma not_below_zero (x : float) : (x <? 0)%float = false ↔ sided false (Prim2SF x).
Proof.
  rewrite ltb_spec. change (Prim2SF 0) with (S754_zero false).
  destruct (Prim2SF x) as [s|[]| |[] m e]; cbn; split; done.
Qed.

Lemma not_above_zero (x : float) : (0 <? x)%float = false ↔ sided true (Prim2SF x).
Proof.
  rewrite ltb_spec. change (Prim2SF 0) with (S754_zero false).
  destruct (Prim2SF x) as [s|[]| |[] m e]; cbn; split; done.
Qed.

Lemma above_zero (x : float) :
  (0 <? x)%float = true →
  Prim2SF x = S754_infinity false ∨ ∃ m e, Prim2SF x = S754_finite false m e.
Proof.
  rewrite ltb_spec. change (Prim2SF 0) with (S754_zero false).
  destruct (Prim2SF x) as [s|[]| |[] m e]; cbn; try done; eauto.
Qed.

Lemma binary_round_signed s m e : signed s (binary_round prec emax s m e).
Proof.
  unfold binary_round. destruct (shl_align m e _) as [mz ez].
  apply binary_round_aux_signed.
Qed.

Lemma binary_normalize_pos (m : positive) e :
  sided false (binary_normalize prec emax (Z.pos m) e false).
Proof. apply sided_of_signed, binary_round_signed. Qed.

Lemma binary_normalize_neg (m : positive) e :
  sided true (binary_normalize prec emax (Z.neg m) e false).
Proof. apply sided_of_signed, binary_round_signed. Qed.

Lemma sided_mul sx sy x y :
  sided sx x → sided sy y → sided (xorb sx sy) (SF64mul x y).
Proof.
  unfold SF64mul.
  destruct x as [s|s| |s m e], y as [s'|s'| |s' m' e']; cbn [sided SFmul];
    intros Hx Hy; subst; try done.
  apply sided_of_signed, binary_round_aux_signed.
Qed.

Lemma sided_square x : sided false (SF64mul x x).
Proof.
  unfold SF64mul. destruct x as [s|s| |s m e]; cbn [sided SFmul]; try done.
  - by destruct s.
  - generalize (binary_round_aux_signed (xorb s s) (Z.pos (m * m)) (e + e) loc_Exact).
    rewrite xorb_nilpotent. apply sided_of_signed.
Qed.

Lemma sided_div_positive s x y :
  sided s x → SFltb (S754_zero false) y = true → sided s (SF64div x y).
Proof.
  unfold SF64div.
  destruct x as [sx|sx| |sx m e], y as [s'|[]| |[] m' e']; cbn [sided SFdiv];
    intros Hx Hy; subst; try done; rewrite ?xorb_false_r; try done.
  destruct (SFdiv_core_binary _ _ _ _ _ _) as [[mz ez] lz].
  apply sided_of_signed, binary_round_aux_signed.
Qed.

Lemma sided_add s x y : sided s x → sided s y → sided s (SF64add x y).
Proof.
  unfold SF64add.
  destruct x as [sx|sx| |sx m e], y as [sy|sy| |sy m' e']; cbn [sided SFadd];
    intros Hx Hy; subst; try done.
  - by destruct sx, sy.
  - by destruct s.
  - cbv zeta. destruct s; cbn [cond_Zopp Z.opp Z.add].
    + apply binary_normalize_neg.
    + apply binary_normalize_pos.
Qed.

Lemma sided_sub s x y : sided s x → sided (negb s) y → sided s (SF64sub x y).
Proof.
  unfold SF64sub.
  destruct x as [sx|sx| |sx m e], y as [sy|sy| |sy m' e']; cbn [sided SFsub];
    intros Hx Hy; try done.
  all: try (subst sy; by rewrite negb_involutive).
  all: try (subst sx; try subst sy; by destruct s).
  - by destruct sx, sy.
  - subst sx sy. cbv zeta. destruct s; cbn [negb cond_Zopp Z.opp Z.add Z.sub].
    + apply binary_normalize_neg.
    + apply binary_normalize_pos.
Qed.
End Sides.

Section EnergySigns.
Import EnergyTester.

Lemma kinetic_term_sided (ke m v : float) :
  sided false (Prim2SF ke) → sided false (Prim2SF m) →
  sided false (Prim2SF (ke + 0.5 * m * (v * v))).
Proof.
  intros Hke Hm. rewrite add_spec, !mul_spec.
  apply sided_add; [done|].
  apply (sided_mul false false); [|apply sided_square].
  by apply (sided_mul false false).
Qed.

Lemma potential_term_sided (pe m1 m2 r : float) :
  sided true (Prim2SF pe) → sided false (Prim2SF m1) → sided false (Prim2SF m2) →
  (0 <? r)%float = true →
  sided true (Prim2SF (pe - PhysicsEngine.G * m1 * m2 / r)).
Proof.
  intros Hpe Hm1 Hm2 Hr. rewrite sub_spec, div_spec, !mul_spec.
  apply sided_sub; [done|]. cbn [negb].
  apply sided_div_positive; [|rewrite ltb_spec in Hr; exact Hr].
  apply (sided_mul false false); [|done].
  by apply (sided_mul false false).
Qed.

Lemma potential_from_sided σ (bs : list ref) pe :
  (∀ body, body ∈ bs → (CelestialBody.mass (deref σ body) <? 0)%float = false) →
  sided true (Prim2SF pe) → sided true (Prim2SF (potential_from σ bs pe)).
Proof.
  revert pe. induction bs as [|body1 rest IH]; intros pe Hm Hpe; [done|].
  cbn [potential_from]. apply IH.
  { intros body Hb. apply Hm, elem_of_cons. by right. }
  assert (Hm1 : sided false (Prim2SF (CelestialBody.mass (deref σ body1)))).
  { apply not_below_zero, Hm, elem_of_cons. by left. }
  assert (Hrest : ∀ body, body ∈ rest →
            sided false (Prim2SF (CelestialBody.mass (deref σ body)))).
  { intros body Hb. apply not_below_zero, Hm, elem_of_cons. by right. }
  clear IH Hm. revert pe Hpe. induction rest as [|body2 rest IH]; intros pe Hpe; [done|].
  cbn [foldl]. apply IH.
  { intros body Hb. apply Hrest, elem_of_cons. by right. }
  destruct (0 <? _)%float eqn:Hr; [|done].
  apply potential_term_sided; [done|done| |done].
  apply Hrest, elem_of_cons. by left.
Qed.

(** X13.  When no body of the collection has a negative mass, the kinetic
    energy that [calculate_kinetic_energy] returns is never negative and
    the potential energy that [calculate_potential_energy] returns is never
    positive, rounding included (either may be a NaN after an overflow). *)
Theorem energies_keep_their_sides (w : world) :
  (∀ body, body ∈ PhysicsEngine.bodies (engine w) →
     (CelestialBody.mass (deref (objects w) body) <? 0)%float = false) →
  (calculate_kinetic_energy w <? 0)%float = false
  ∧ (0 <? calculate_potential_energy w)%float = false.
Proof.
  intros Hm. split.
  - apply not_below_zero. unfold calculate_kinetic_energy.
    assert (H0 : sided false (Prim2SF 0)) by done. revert H0.
    generalize 0%float. revert Hm.
    induction (PhysicsEngine.bodies (engine w)) as [|body bs IH]; intros Hm ke Hke;
      [done|].
    cbn [foldl]. apply IH.
    + intros b Hb. apply Hm, elem_of_cons. by right.
    + apply kinetic_term_sided; [done|].
      apply not_below_zero, Hm, elem_of_cons. by left.
  - apply not_above_zero. by apply potential_from_sided.
Qed.

(** The Sun and the Earth after three steps. *)
Lemma energies_keep_their_sides_witness :
  (calculate_kinetic_energy (steps 3 1000 sun_earth) <? 0)%float = false
  ∧ (0 <? calculate_potential_energy (steps 3 1000 sun_earth))%float = false.
Proof.
  apply (energies_keep_their_sides (steps 3 1000 sun_earth)).
  intros body Hb. vm_compute in Hb.
  apply elem_of_cons in Hb as [->|Hb]; [vm_compute; reflexivity|].
  apply elem_of_cons in Hb as [->|Hb]; [vm_compute; reflexivity|].
  by apply elem_of_nil in Hb.
Defined.
End EnergySigns.

(** ** What [run_test] records *)


Section RunTest.
Import EnergyTester.
Implicit Types (w : world) (self : EnergyTester.t).

Lemma recorded_steps_succ n ri :
  recorded_steps (S n) ri
  = recorded_steps n ri
    ++ (if decide (Z.of_nat (S n) `mod` ri = 0)%Z then [S n] else []).
Proof.
  unfold recorded_steps. rewrite (seq_S (S n)), filter_app. reflexivity.
Qed.

Lemma recorded_steps_zero ri : recorded_steps 0 ri = [0].
Proof.
  unfold recorded_steps. cbn [seq]. rewrite filter_cons, filter_nil.
  rewrite decide_True; [done|]. apply Zmod_0_l.
Qed.

Lemma simulate_records n dt ri self w :
  (simulate n dt ri (record_energy w self) w).1
  = records_of dt w self (recorded_steps n ri).
Proof.
  induction n as [|n IH].
  - rewrite recorded_steps_zero. done.
  - rewrite simulate_succ. cbn [turn fst snd]. rewrite simulate_world, IH.
    rewrite recorded_steps_succ.
    replace (1 + Z.of_nat n)%Z with (Z.of_nat (S n)) by lia.
    case_decide as Hmod.
    + unfold records_of, record_energy. cbn [time_points kinetic_energy potential_energy total_energy].
      rewrite !fmap_app, !app_assoc. cbn [fmap list_fmap]. rewrite <- steps_succ. done.
    + by rewrite app_nil_r.
Qed.

Lemma multiple_abs (k ri : Z) :
  (k `mod` ri)%Z = 0%Z ↔ (k `mod` Z.abs ri)%Z = 0%Z.
Proof.
  destruct (decide (ri = 0%Z)) as [->|Hri]; [done|].
  rewrite !Z.mod_divide by lia. symmetry. apply Z.divide_abs_l.
Qed.

Lemma next_multiple (n a : nat) :
  0 < a →
  if decide (S n mod a = 0)
  then S n / a = S (n / a) ∧ S n - S n mod a = S n
  else S n / a = n / a ∧ S n - S n mod a = n - n mod a.
Proof.
  intros Ha.
  pose proof (Nat.div_mod_eq n a) as Hn. pose proof (Nat.mod_upper_bound n a) as Hr.
  pose proof (Nat.div_mod_eq (S n) a) as Hn'.
  pose proof (Nat.mod_upper_bound (S n) a) as Hr'.
  case_decide as Hmod.
  - split; [|lia]. rewrite Hmod in Hn'. nia.
  - assert (S n / a = n / a) as Heq by nia. split; [done|]. rewrite Heq in Hn'. lia.
Qed.

Lemma recorded_steps_interval n ri :
  ri ≠ 0%Z →
  length (recorded_steps n ri) = S (n / Z.abs_nat ri)
  ∧ last (recorded_steps n ri) = Some (n - n mod Z.abs_nat ri).
Proof.
  intros Hri. assert (Ha : 0 < Z.abs_nat ri) by lia.
  induction n as [|n [IHlen IHlast]].
  - rewrite recorded_steps_zero. split; [|done].
    by rewrite Nat.Div0.div_0_l.
  - rewrite recorded_steps_succ.
    pose proof (next_multiple n _ Ha) as Hnext.
    assert (Hiff : (Z.of_nat (S n) `mod` ri = 0)%Z ↔ S n mod Z.abs_nat ri = 0).
    { rewrite multiple_abs. rewrite <- (Nat2Z.inj_iff _ 0), Nat2Z.inj_mod.
      by rewrite Zabs2Nat.id_abs. }
    destruct (decide (S n mod Z.abs_nat ri = 0)) as [Hmod|Hmod].
    + rewrite decide_True by by apply Hiff.
      destruct Hnext as [-> ->]. rewrite length_app, last_snoc. cbn [length].
      split; [lia|done].
    + rewrite decide_False by (intros H; by apply Hmod, Hiff).
      destruct Hnext as [-> ->]. by rewrite app_nil_r.
Qed.

(** X14.  [run_test(num_steps, dt, record_interval)] on an engine with
    at least one body and with [record_interval != 0] returns, leaves the
    engine [num_steps] steps on, and has appended to each of the four lists
    one record for step 0 and one for every multiple of [record_interval]
    up to [num_steps]: [num_steps // |record_interval| + 1] records.  The
    energy reported as final is the one of the last record, which is the
    state after the last multiple of [record_interval], not the state after
    the last step unless [record_interval] divides [num_steps].  (With no
    body at all the program divides the Python float 0.0 by 0.0 and
    raises; that case is left out.) *)
Theorem run_test_records n (dt : float) (ri : Z) self w :
  ri ≠ 0%Z → PhysicsEngine.bodies (engine w) ≠ [] →
  let state k := steps k dt w in
  let kept := recorded_steps n ri in
  ∃ v self',
    run_test n dt ri self w = Some (v, self', state n)
    ∧ time_points self' = time_points self ++ (clock ∘ state <$> kept)
    ∧ kinetic_energy self'
      = kinetic_energy self ++ (calculate_kinetic_energy ∘ state <$> kept)
    ∧ potential_energy self'
      = potential_energy self ++ (calculate_potential_energy ∘ state <$> kept)
    ∧ total_energy self'
      = total_energy self ++ (calculate_total_energy ∘ state <$> kept)
    ∧ length kept = S (n / Z.abs_nat ri)
    ∧ initial_energy v = calculate_total_energy w
    ∧ final_energy v = calculate_total_energy (state (n - n mod Z.abs_nat ri))
    ∧ relative_error v = percent_change (initial_energy v) (final_energy v)
    ∧ passed v = (relative_error v <? 5)%float.
Proof.
  intros Hri _ state kept.
  destruct (recorded_steps_interval n ri Hri) as [Hlen Hlast]. fold kept in Hlen, Hlast.
  pose proof (simulate_records n dt ri self w) as Hrec.
  pose proof (simulate_world n dt ri (record_energy w self) w) as Hworld.
  unfold run_test. rewrite decide_False by (intros [? _]; done).
  destruct (simulate n dt ri (record_energy w self) w) as [self' w'].
  cbn [fst snd] in Hrec, Hworld. subst self' w'. fold kept.
  eexists _, _. split; [reflexivity|].
  cbn [records_of time_points kinetic_energy potential_energy total_energy
       initial_energy final_energy relative_error passed].
  do 6 (split; [done|]). split; [|done].
  destruct kept as [|k0 kept'] using rev_ind; [done|].
  rewrite fmap_app, app_assoc. cbn [fmap list_fmap]. rewrite last_snoc. cbn [default].
  rewrite last_snoc in Hlast. by injection Hlast as ->.
Qed.

(** Five steps recorded every second step: three records, and the final
    energy is the one after step 4. *)
Lemma run_test_records_witness :
  ∃ v self',
    run_test 5 1000 2 init sun_earth = Some (v, self', steps 5 1000 sun_earth)
    ∧ length (time_points self') = 3
    ∧ final_energy v = calculate_total_energy (steps 4 1000 sun_earth).
Proof.
  destruct (run_test_records 5 1000 2 init sun_earth)
    as (v & self' & Hrun & Htime & _ & _ & _ & _ & _ & Hfinal & _);
    [discriminate | discriminate |].
  exists v, self'. split; [exact Hrun|]. split; [|exact Hfinal].
  rewrite Htime. reflexivity.
Defined.
End RunTest.

(** ** The table of [save_report] *)

Section Report.
Import EnergyTester EnergyReport.
Implicit Types (self : EnergyTester.t).

Lemma length_range_step stop step :
  0 < stop → length (range_step stop step) = S ((stop - 1) / step).
Proof.
  intros H. unfold range_step. rewrite decide_True by done.
  by rewrite length_fmap, length_seq.
Qed.

Lemma lookup_range_step stop step j :
  0 < stop → j < S ((stop - 1) / step) → range_step stop step !! j = Some (j * step).
Proof.
  intros H Hj. unfold range_step. rewrite decide_True by done.
  rewrite list_lookup_fmap, lookup_seq_lt by done. done.
Qed.

(** With a stride of [n / 20] there are between 20 and 39 samples, all
    below [n]. *)
Lemma stride_bounds n :
  20 ≤ n →
  19 ≤ (n - 1) / (n / 20) ≤ 38
  ∧ ∀ j, j < S ((n - 1) / (n / 20)) → j * (n / 20) < n.
Proof.
  intros Hn.
  pose proof (Nat.div_mod_eq n 20) as Hs.
  pose proof (Nat.mod_upper_bound n 20) as Hr.
  assert (Hpos : 1 ≤ n / 20) by (apply Nat.div_le_lower_bound; lia).
  pose proof (Nat.div_mod_eq (n - 1) (n / 20)) as Hq.
  pose proof (Nat.mod_upper_bound (n - 1) (n / 20)) as Hqr.
  split; [split|]; [nia|nia|]. intros j Hj. nia.
Qed.

Lemma detail_row_in_range self initial i :
  aligned self → i < length (time_points self) →
  is_Some (detail_row self initial i).
Proof.
  intros (Hk & Hp & Ht) Hi. unfold detail_row.
  destruct (lookup_lt_is_Some_2 (time_points self) i) as [t ->]; [lia|].
  destruct (lookup_lt_is_Some_2 (kinetic_energy self) i) as [k ->]; [lia|].
  destruct (lookup_lt_is_Some_2 (potential_energy self) i) as [p ->]; [lia|].
  destruct (lookup_lt_is_Some_2 (total_energy self) i) as [e ->]; [lia|].
  by eexists.
Qed.

Lemma save_report_few self :
  aligned self → 0 < length (time_points self) < 20 →
  save_report self = inl ValueError.
Proof.
  intros (Hk & Hp & Ht) Hn. unfold save_report.
  destruct (last (time_points self)) eqn:Hlast.
  2:{ apply last_None in Hlast. rewrite Hlast in Hn. cbn in Hn. lia. }
  destruct (lookup_lt_is_Some_2 (total_energy self) 0) as [e ->]; [lia|].
  rewrite decide_True; [done|]. apply Nat.div_small. lia.
Qed.

Lemma save_report_many self :
  aligned self →
  let n := length (time_points self) in
  20 ≤ n →
  ∃ initial rows,
    total_energy self !! 0 = Some initial
    ∧ save_report self = inr rows
    ∧ 20 ≤ length rows ≤ 39
    ∧ ∀ j, j < length rows →
        j * (n / 20) < n
        ∧ rows !! j = detail_row self initial (j * (n / 20)).
Proof.
  intros Hal n Hn. pose proof Hal as (Hk & Hp & Ht). fold n in Hk, Hp, Ht.
  unfold save_report. fold n.
  destruct (last (time_points self)) eqn:Hlast.
  2:{ apply last_None in Hlast. unfold n in Hn. rewrite Hlast in Hn. cbn in Hn. lia. }
  destruct (lookup_lt_is_Some_2 (total_energy self) 0) as [e He]; [lia|].
  rewrite He. exists e.
  destruct (stride_bounds n Hn) as [Hq Hbelow].
  rewrite decide_False.
  2:{ intros H0. pose proof (Nat.div_mod_eq n 20).
      pose proof (Nat.mod_upper_bound n 20). lia. }
  destruct (mapM (detail_row self e) (range_step n (n / 20))) as [rows|] eqn:Hrows.
  - exists rows. split; [done|]. split; [done|].
    pose proof (length_mapM _ _ _ Hrows) as Hlen.
    rewrite length_range_step in Hlen by lia.
    split; [lia|]. intros j Hj. split; [apply Hbelow; lia|].
    apply mapM_Some_1 in Hrows.
    destruct (lookup_lt_is_Some_2 rows j Hj) as [r Hr].
    rewrite Hr. symmetry.
    eapply (Forall2_lookup_lr _ _ _ j) in Hrows; [exact Hrows| |exact Hr].
    apply lookup_range_step; lia.
  - exfalso. apply mapM_None_1, Exists_exists in Hrows as (i & Hi & Hnone).
    apply list_elem_of_lookup in Hi as [j Hj].
    pose proof (lookup_lt_Some _ _ _ Hj) as Hjlt.
    rewrite length_range_step in Hjlt by lia.
    rewrite lookup_range_step in Hj by lia.
    assert (i = j * (n / 20)) as -> by congruence.
    destruct (detail_row_in_range self e (j * (n / 20)) Hal) as [r Hr];
      [by apply Hbelow|]. congruence.
Qed.



Lemma aligned_records_of dt w self ks : aligned self → aligned (records_of dt w self ks).
Proof.
  intros (Hk & Hp & Ht).
  unfold aligned, records_of.
  cbn [time_points kinetic_energy potential_energy total_energy].
  rewrite !length_app, !length_fmap. lia.
Qed.

(** X16.  [run_test] followed by [save_report], as [main] of [test.py]
    runs them on a new tester: [run_test] returns with
    [num_steps // |record_interval| + 1] records, so [save_report] raises
    [ValueError] when [num_steps // |record_interval|] is below 19 and
    writes its table (20 to 39 rows) otherwise. *)
Theorem report_after_run_test n (dt : float) (ri : Z) w :
  ri ≠ 0%Z → PhysicsEngine.bodies (engine w) ≠ [] →
  ∃ v self',
    run_test n dt ri init w = Some (v, self', steps n dt w)
    ∧ length (time_points self') = S (n / Z.abs_nat ri)
    ∧ (n / Z.abs_nat ri < 19 → save_report self' = inl ValueError)
    ∧ (19 ≤ n / Z.abs_nat ri →
         ∃ rows, save_report self' = inr rows ∧ 20 ≤ length rows ≤ 39).
Proof.
  intros Hri _.
  pose proof (simulate_records n dt ri init w) as Hrec.
  pose proof (simulate_world n dt ri (record_energy w init) w) as Hworld.
  unfold run_test. rewrite decide_False by (intros [? _]; done).
  destruct (simulate n dt ri (record_energy w init) w) as [self1 w1].
  cbn [fst snd] in Hrec, Hworld. subst self1 w1.
  eexists _, _. split; [reflexivity|].
  assert (Hal : aligned (records_of dt w init (recorded_steps n ri))).
  { by apply aligned_records_of. }
  assert (Hlen : length (time_points (records_of dt w init (recorded_steps n ri)))
                 = S (n / Z.abs_nat ri)).
  { cbn [records_of time_points init app]. rewrite length_fmap.
    by apply recorded_steps_interval. }
  split; [exact Hlen|]. split.
  - intros Hn. apply save_report_few; [done|]. rewrite Hlen. lia.
  - intros Hn. destruct (save_report_many _ Hal) as (e & rows & _ & Hrows & Hrl & _).
    { rewrite Hlen. lia. }
    by exists rows.
Qed.

(** Ten steps recorded at every step give 11 records, too few for the
    table. *)
Lemma report_after_run_test_witness :
  ∃ v self',
    run_test 10 1000 1 init sun_earth = Some (v, self', steps 10 1000 sun_earth)
    ∧ length (time_points self') = 11
    ∧ save_report self' = inl ValueError.
Proof.
  destruct (report_after_run_test 10 1000 1 sun_earth)
    as (v & self' & Hrun & Hlen & Hfew & _); [discriminate | discriminate |].
  exists v, self'. split; [exact Hrun|]. split; [exact Hlen|].
  apply Hfew. apply Nat.ltb_lt. vm_compute. reflexivity.
Defined.
End Report.

(** ** The text fields *)


Section Input.
Import InputField.

Lemma length_removelast {A} (l : list A) : length (removelast l) = length l - 1.
Proof.
  destruct l as [|x l] using rev_ind; [done|].
  rewrite removelast_last, length_app. cbn. lia.
Qed.

Lemma handle_event_bound ev self :
  one_key ev →
  length (value (handle_event ev self)) ≤ length (value self) `max` 20.
Proof.
  intros Hev. destruct ev as [inside|k unicode|]; cbn [handle_event]; [cbn; lia| |lia].
  destruct (active self); [|lia].
  destruct k; cbn [value].
  - rewrite length_removelast. lia.
  - lia.
  - case_decide; cbn [value]; [|lia]. rewrite length_app. cbn in Hev. lia.
Qed.

(** X17.  Editing a text field.  When every key press carries at most
    one character, the text never grows beyond 20 characters (or beyond the
    length it had, if that was more).  A field without the focus ignores
    the keyboard: as long as no click lands inside it, no event changes it.
    Typing a character into a focused field of fewer than 20 characters and
    pressing Backspace gives back the field as it was, and Backspace on an
    empty text leaves it empty. *)
Theorem input_field_editing :
  (∀ evs self,
     Forall one_key evs →
     length (value (handle_events evs self)) ≤ length (value self) `max` 20)
  ∧ (∀ evs self,
       active self = false → MOUSEBUTTONDOWN true ∉ evs →
       handle_events evs self = self)
  ∧ (∀ self c k,
       active self = true → length (value self) < 20 →
       handle_event (KEYDOWN K_BACKSPACE k) (handle_event (KEYDOWN K_other [c]) self)
       = self)
  ∧ (∀ self k, value (handle_event (KEYDOWN K_BACKSPACE k) (mk [] (active self))) = []).
Proof.
  split; [|split; [|split]].
  - intros evs. induction evs as [|ev evs IH]; intros self Hevs; [cbn; lia|].
    apply Forall_cons in Hevs as [Hev Hevs]. cbn [handle_events foldl].
    fold (handle_events evs (handle_event ev self)).
    pose proof (IH (handle_event ev self) Hevs).
    pose proof (handle_event_bound ev self Hev). lia.
  - intros evs. induction evs as [|ev evs IH]; intros self Hoff Hnin; [done|].
    apply not_elem_of_cons in Hnin as [Hne Hnin]. cbn [handle_events foldl].
    fold (handle_events evs (handle_event ev self)).
    assert (Hsame : handle_event ev self = self).
    { destruct ev as [[]|k unicode|]; cbn [handle_event]; try done.
      - by destruct self; cbn in *; subst.
      - by rewrite Hoff. }
    rewrite Hsame. by apply IH.
  - intros [v a] c k Hon Hlen. cbn [active value] in Hon, Hlen. subst a.
    cbn [handle_event active value]. rewrite decide_True by done.
    cbn [active value]. by rewrite removelast_last.
  - intros self k. cbn [handle_event active value]. by destruct (active self).
Qed.
End Input.
